(** * Grover's search demo (grover_interactive.py): circuit construction and
      state-vector semantics

    The Python source builds a gate list on a Qiskit [QuantumCircuit] and
    hands it to a state-vector simulator.  This development embeds

    - the circuit construction of [apply_oracle], [apply_diffusion] and
      [run_grovers_algorithm] as operations on a mutable circuit that may
      raise, and
    - the action of the three gates the source uses (x, h, mcx) on an
      amplitude vector, by index arithmetic over the vector.

    Amplitudes are complex numbers over the real numbers of the Standard
    Library: arithmetic is exact, rounding is not modelled. *)

From Stdlib Require Import Reals Lra Lia Arith PeanoNat Bool String Ascii List.
Import ListNotations.

Local Open Scope R_scope.

(* ================================================================= *)
(** ** Complex amplitudes *)

(** The gates of the source have real matrix entries, so the state space is
    only used as a real vector space with the squared modulus on it. *)
Definition C : Type := (R * R)%type.

Definition C0 : C := (0, 0).
Definition C1 : C := (1, 0).
Definition Cadd (a b : C) : C := (fst a + fst b, snd a + snd b).
Definition Csub (a b : C) : C := (fst a - fst b, snd a - snd b).
Definition Copp (a : C) : C := (- fst a, - snd a).
Definition Cscale (r : R) (a : C) : C := (r * fst a, r * snd a).
Definition Cnorm2 (a : C) : R := fst a * fst a + snd a * snd a.

(** [lin x y a b] is the real linear combination [x*a + y*b]. *)
Definition lin (x y : R) (a b : C) : C := Cadd (Cscale x a) (Cscale y b).

(* ================================================================= *)
(** ** State vectors *)

Definition statevector : Type := list C.

Definition amp_at (state : statevector) (i : nat) : C := nth i state C0.

Definition tabulate (f : nat -> C) (len : nat) : statevector :=
  map f (seq 0 len).

(** The basis state |0...0> on [n] qubits, the simulator's start state. *)
Definition init (n : nat) : statevector := C1 :: repeat C0 (2 ^ n - 1).

Definition vsum (v : statevector) : C := fold_right Cadd C0 v.

Definition mean (v : statevector) : C := Cscale (/ INR (length v)) (vsum v).

Definition probability (v : statevector) (i : nat) : R := Cnorm2 (amp_at v i).

Definition total_probability (v : statevector) : R :=
  fold_right Rplus 0 (map Cnorm2 v).

(** Pointwise combination of two vectors. *)
Definition vzip (f : C -> C -> C) (u w : statevector) : statevector :=
  map (fun p => f (fst p) (snd p)) (combine u w).

(** The vector that is [c] at index 0 and zero elsewhere. *)
Definition basis0 (c : C) (n : nat) : statevector := c :: repeat C0 (2 ^ n - 1).

(** Sign flip of the single amplitude at index [k]. *)
Definition negate_at (k : nat) (v : statevector) : statevector :=
  tabulate (fun i => if Nat.eqb i k then Copp (amp_at v i) else amp_at v i)
           (length v).

(** Permutation of the amplitudes by xor of the index with [m]. *)
Definition xor_perm (m : nat) (v : statevector) : statevector :=
  tabulate (fun i => amp_at v (Nat.lxor i m)) (length v).

(* ================================================================= *)
(** ** Gate semantics *)

Definition inv_sqrt2 : R := / sqrt 2.

(** Modelled from the spec: the action of Qiskit's [x] gate on the amplitude
    vector (the simulator is a library, not part of the repository).
    GateOps.pauliX: swap the amplitudes of every index pair differing only
    in bit [qubit]. *)
Definition pauliX (qubit : nat) (state : statevector) : statevector :=
  tabulate (fun i => amp_at state (Nat.lxor i (2 ^ qubit))) (length state).

(** Modelled from the spec: the action of Qiskit's [h] gate.
    GateOps.hadamard: every pair [(a, b)] of amplitudes at indices differing
    only in bit [qubit] becomes [((a+b)/sqrt 2, (a-b)/sqrt 2)]. *)
Definition hadamard (qubit : nat) (state : statevector) : statevector :=
  tabulate (fun i =>
              let j := Nat.lxor i (2 ^ qubit) in
              if Nat.testbit i qubit
              then Cscale inv_sqrt2 (Csub (amp_at state j) (amp_at state i))
              else Cscale inv_sqrt2 (Cadd (amp_at state i) (amp_at state j)))
           (length state).

(** Modelled from the spec: the action of Qiskit's [mcx] gate.
    GateOps.multiControlledNOT: flip the target-qubit amplitude pair only
    for indices where every control bit is 1.  With an empty control list
    every index qualifies. *)
Definition multiControlledNOT (controls : list nat) (target : nat)
    (state : statevector) : statevector :=
  tabulate (fun i =>
              if forallb (Nat.testbit i) controls
              then amp_at state (Nat.lxor i (2 ^ target))
              else amp_at state i)
           (length state).

(* ================================================================= *)
(** ** Circuits *)

Inductive instruction : Type :=
| XGate (qubit : nat)
| HGate (qubit : nat)
| MCXGate (controls : list nat) (target : nat)
| MeasureAll.

Record QuantumCircuit : Type := mkCircuit {
  num_qubits : nat;
  data : list instruction
}.

(** The exceptions the construction can raise: [int()] on a character that
    is not a digit, and a qubit index outside the circuit. *)
Inductive exn : Type :=
| ValueError
| CircuitError.

(** Result of running a piece of construction code on the circuit object.
    The circuit is mutated in place, so a raise still carries the circuit
    as it was left. *)
Inductive outcome : Type :=
| Done (qc : QuantumCircuit)
| Raised (e : exn) (qc : QuantumCircuit).

Definition circ_op : Type := QuantumCircuit -> outcome.

Definition skip : circ_op := fun qc => Done qc.

Definition seq_op (a b : circ_op) : circ_op :=
  fun qc => match a qc with
            | Done qc' => b qc'
            | Raised e qc' => Raised e qc'
            end.

Notation "a ;; b" := (seq_op a b) (at level 61, right associativity).

Fixpoint for_each {A : Type} (l : list A) (body : A -> circ_op) : circ_op :=
  match l with
  | [] => skip
  | x :: r => body x ;; for_each r body
  end.

Fixpoint repeat_op (k : nat) (body : circ_op) : circ_op :=
  match k with
  | O => skip
  | S k' => body ;; repeat_op k' body
  end.

(** Appending an instruction checks its qubit arguments against the size of
    the circuit. *)
Definition append (g : instruction) (qargs : list nat) : circ_op :=
  fun qc =>
    if forallb (fun q => Nat.ltb q (num_qubits qc)) qargs
    then Done (mkCircuit (num_qubits qc) (data qc ++ [g]))
    else Raised CircuitError qc.

Definition qc_x (q : nat) : circ_op := append (XGate q) [q].
Definition qc_h (q : nat) : circ_op := append (HGate q) [q].
Definition qc_mcx (controls : list nat) (target : nat) : circ_op :=
  append (MCXGate controls target) (controls ++ [target]).
Definition qc_measure_all : circ_op :=
  fun qc => Done (mkCircuit (num_qubits qc) (data qc ++ [MeasureAll])).

(** A one-qubit gate called on [range(n)].  The circuit first converts the
    whole range to qubits, raising on an index it does not have, then
    rejects an empty range ("One or more of the arguments are empty"), and
    only then appends one gate per qubit, in order. *)
Definition append_range (gate : nat -> instruction) (n : nat) : circ_op :=
  fun qc =>
    if forallb (fun q => Nat.ltb q (num_qubits qc)) (seq 0 n)
    then if Nat.eqb n 0
         then Raised CircuitError qc
         else Done (mkCircuit (num_qubits qc)
                              (data qc ++ map gate (seq 0 n)))
    else Raised CircuitError qc.

(** [qc.h(range(n))] and [qc.x(range(n))]. *)
Definition qc_h_range (n : nat) : circ_op := append_range HGate n.
Definition qc_x_range (n : nat) : circ_op := append_range XGate n.

(** [int(bit)] on a one-character string.  The characters of a target
    string are those of [ascii], read as the code points U+0000 to U+00FF;
    among these [int()] accepts the ten digits ['0'] to ['9'] and nothing
    else (signs, blanks and the superscript digits all raise).  Characters
    beyond U+00FF are outside the type. *)
Definition int_of_char (c : ascii) : option nat :=
  let k := nat_of_ascii c in
  if andb (Nat.leb 48 k) (Nat.leb k 57) then Some (k - 48)%nat else None.

Fixpoint ints_of_chars (cs : list ascii) : option (list nat) :=
  match cs with
  | [] => Some []
  | c :: r =>
      match int_of_char c, ints_of_chars r with
      | Some b, Some bs => Some (b :: bs)
      | _, _ => None
      end
  end.

(** [[int(bit) for bit in target_state[::-1]]] *)
Definition target_bits (target_state : string) : option (list nat) :=
  ints_of_chars (rev (list_ascii_of_string target_state)).

Definition enumerate {A : Type} (l : list A) : list (nat * A) :=
  combine (seq 0 (length l)) l.

(** [for i, bit in enumerate(target_bits): if bit == 0: qc.x(i)] *)
Definition x_where_zero (bits : list nat) : circ_op :=
  for_each (enumerate bits)
           (fun p => if Nat.eqb (snd p) 0 then qc_x (fst p) else skip).

(** The multi-controlled Z of both [apply_oracle] and [apply_diffusion]:
    H on the last qubit, MCX controlled by all the others, H again.
    [n_qubits - 1] is the truncated subtraction: for [n_qubits = 0] Python
    has the index -1, which an empty circuit rejects just as it rejects 0. *)
Definition mcz_last (n_qubits : nat) : circ_op :=
  qc_h (n_qubits - 1) ;;
  qc_mcx (seq 0 (n_qubits - 1)) (n_qubits - 1) ;;
  qc_h (n_qubits - 1).

Definition apply_oracle (n_qubits : nat) (target_state : string) : circ_op :=
  fun qc =>
    match target_bits target_state with
    | None => Raised ValueError qc
    | Some bits =>
        (x_where_zero bits ;; mcz_last n_qubits ;; x_where_zero bits) qc
    end.

Definition apply_diffusion (n_qubits : nat) : circ_op :=
  qc_h_range n_qubits ;;
  qc_x_range n_qubits ;;
  mcz_last n_qubits ;;
  qc_x_range n_qubits ;;
  qc_h_range n_qubits.

(** [run_grovers_algorithm] up to and including [measure_all]; the sampling
    of 1024 shots draws from [probability] of the state before measurement. *)
Definition run_grovers_algorithm (n_qubits : nat) (target_state : string)
    (iterations : nat) : outcome :=
  (qc_h_range n_qubits ;;
   repeat_op iterations
     (apply_oracle n_qubits target_state ;; apply_diffusion n_qubits) ;;
   qc_measure_all)
    (mkCircuit n_qubits []).

(* ================================================================= *)
(** ** Simulation *)

Definition apply_instruction (g : instruction) (v : statevector)
    : statevector :=
  match g with
  | XGate q => pauliX q v
  | HGate q => hadamard q v
  | MCXGate cs t => multiControlledNOT cs t v
  | MeasureAll => v
  end.

Definition simulate (gates : list instruction) (v : statevector)
    : statevector :=
  fold_left (fun s g => apply_instruction g s) gates v.

(** The gates a construction appends to a circuit with [n] qubits. *)
Definition gates_of (op : circ_op) (n : nat) : option (list instruction) :=
  match op (mkCircuit n []) with
  | Done qc => Some (data qc)
  | Raised _ _ => None
  end.

(** Running a construction on a fresh circuit and simulating what it
    appended, from the state [v]. *)
Definition run_on (op : circ_op) (n : nat) (v : statevector)
    : option statevector :=
  match gates_of op n with
  | Some gs => Some (simulate gs v)
  | None => None
  end.

(** The state just before measurement of a finished run. *)
Definition final_state (r : outcome) : option statevector :=
  match r with
  | Done qc => Some (simulate (data qc) (init (num_qubits qc)))
  | Raised _ _ => None
  end.

(* ================================================================= *)
(** ** Target strings *)

Definition is_binary_char (c : ascii) : bool :=
  orb (Ascii.eqb c "0"%char) (Ascii.eqb c "1"%char).

Definition is_binary (s : string) : bool :=
  forallb is_binary_char (list_ascii_of_string s).

(** The integer a binary string denotes, first character most significant:
    Python's [int(s, 2)]. *)
Definition target_index (s : string) : nat :=
  fold_left (fun acc c => (2 * acc + (if Ascii.eqb c "1"%char then 1 else 0))%nat)
            (list_ascii_of_string s) 0%nat.

(** Value of a little-endian bit list, and of its complement. *)
Fixpoint index_le (bits : list nat) : nat :=
  match bits with
  | [] => 0
  | b :: r => (if Nat.eqb b 0 then 0 else 1) + 2 * index_le r
  end%nat.

Fixpoint mask_le (bits : list nat) : nat :=
  match bits with
  | [] => 0
  | b :: r => (if Nat.eqb b 0 then 1 else 0) + 2 * mask_le r
  end%nat.

(** The qubits on which [x_where_zero] places an X gate, counted from
    qubit [k]. *)
Fixpoint zero_positions (k : nat) (bits : list nat) : list nat :=
  match bits with
  | [] => []
  | b :: r => if Nat.eqb b 0 then k :: zero_positions (S k) r
              else zero_positions (S k) r
  end.

Definition xor_mask (qs : list nat) : nat :=
  fold_right (fun q m => Nat.lxor (2 ^ q) m) 0%nat qs.

(** The closed form in the words of the specification, section 4.4:
    [new_amp[i] = 2*mean(amp) - amp[i]]. *)
Definition reflect_about_mean (v : statevector) : statevector :=
  map (fun a => Csub (Cscale 2 (mean v)) a) v.

(** The same with the opposite sign, [amp[i] - 2*mean(amp)]: what the gate
    sequence of [apply_diffusion] is shown to compute. *)
Definition minus_reflect_about_mean (v : statevector) : statevector :=
  map (fun a => Csub a (Cscale 2 (mean v))) v.

(* ================================================================= *)
(** ** The gate lists the constructions append *)

(** [appends op n gs]: on a circuit with [n] qubits, [op] returns normally
    and has appended exactly [gs]. *)
Definition appends (op : circ_op) (n : nat) (gs : list instruction) : Prop :=
  forall d, op (mkCircuit n d) = Done (mkCircuit n (d ++ gs)).

(** [raises op n gs]: on a circuit with [n] qubits, [op] raises a qubit
    index error after having appended [gs]. *)
Definition raises (op : circ_op) (n : nat) (gs : list instruction) : Prop :=
  forall d, op (mkCircuit n d) = Raised CircuitError (mkCircuit n (d ++ gs)).

Definition h_layer (n : nat) : list instruction := map HGate (seq 0 n).

Definition x_layer (qs : list nat) : list instruction := map XGate qs.

Definition mcz_gates (n : nat) : list instruction :=
  [HGate (n - 1); MCXGate (seq 0 (n - 1)) (n - 1); HGate (n - 1)].

Definition oracle_gates (n : nat) (bits : list nat) : list instruction :=
  x_layer (zero_positions 0 bits) ++ mcz_gates n
  ++ x_layer (zero_positions 0 bits).

Definition diffusion_gates (n : nat) : list instruction :=
  h_layer n ++ x_layer (seq 0 n) ++ mcz_gates n ++ x_layer (seq 0 n)
  ++ h_layer n.

Fixpoint iterate_gates (k : nat) (gs : list instruction) : list instruction :=
  match k with
  | O => []
  | S k' => gs ++ iterate_gates k' gs
  end.

Definition grover_gates (n : nat) (bits : list nat) (iterations : nat)
    : list instruction :=
  h_layer n
  ++ iterate_gates iterations (oracle_gates n bits ++ diffusion_gates n)
  ++ [MeasureAll].

(** The characters of a binary string as bits, in the order of
    [target_bits]: last character first. *)
Definition bit_of_char (c : ascii) : nat :=
  if Ascii.eqb c "1"%char then 1%nat else 0%nat.

Definition binary_bits (s : string) : list nat :=
  map bit_of_char (rev (list_ascii_of_string s)).

(** A gate as the constructions of this program can place it on [n]
    qubits. *)
Definition gate_ok (n : nat) (g : instruction) : Prop :=
  match g with
  | XGate q => (q < n)%nat
  | HGate q => (q < n)%nat
  | MCXGate cs t => (1 <= n)%nat /\ cs = seq 0 (n - 1) /\ t = (n - 1)%nat
  | MeasureAll => True
  end.

(* ================================================================= *)
(** ** Target strings of the wrong length *)

(** The leading characters of a target string beyond the [n] last ones. *)
Definition surplus (n : nat) (t : string) : list ascii :=
  firstn (String.length t - n) (list_ascii_of_string t).

Definition all_ones (cs : list ascii) : bool :=
  forallb (fun c => Ascii.eqb c "1"%char) cs.

(** The string of length [n] made of the last [n] characters of [t],
    padded on the left with ['1'] when [t] is shorter. *)
Definition fit_target (n : nat) (t : string) : string :=
  string_of_list_ascii
    (repeat "1"%char (n - String.length t)
     ++ skipn (String.length t - n) (list_ascii_of_string t)).

(* ================================================================= *)
(** ** Auxiliary descriptions of states *)

(** The two outputs of the Hadamard gate on an amplitude pair. *)
Definition had_plus (a b : C) : C := Cscale inv_sqrt2 (Cadd a b).
Definition had_minus (a b : C) : C := Cscale inv_sqrt2 (Csub a b).

(** A state with amplitude [a] at index [k] and [b] everywhere else. *)
Definition two_level (len k : nat) (a b : C) : statevector :=
  tabulate (fun i => if Nat.eqb i k then a else b) len.

(** One oracle-plus-diffusion round on the two amplitudes of such a state
    of length [len]. *)
Definition grover_step (len : nat) (ab : C * C) : C * C :=
  let (a, b) := ab in
  let m := Cscale (/ INR len) (Cadd (Copp a) (Cscale (INR len - 1) b)) in
  (Csub (Copp a) (Cscale 2 m), Csub b (Cscale 2 m)).

Fixpoint grover_amps (len k : nat) (ab : C * C) : C * C :=
  match k with
  | O => ab
  | S k' => grover_amps len k' (grover_step len ab)
  end.

(* ================================================================= *)
(** ** The target options of the application *)

(** The digit of [i] at binary position [q], as a character. *)
Definition bit_char (i q : nat) : ascii :=
  if Nat.testbit i q then "1"%char else "0"%char.

(** The binary digits of [i], most significant first, without leading
    zeros; the single digit ['0'] for 0. *)
Definition bin_digits (i : nat) : list ascii :=
  map (bit_char i) (rev (seq 0 (S (Nat.log2 i)))).

(** [format(i, f'0{width}b')]: the binary digits of [i], padded on the left
    with ['0'] to at least [width] characters (never cut). *)
Definition format_binary (width i : nat) : string :=
  string_of_list_ascii
    (repeat "0"%char (width - length (bin_digits i)) ++ bin_digits i).

(** [[format(i, f'0{n_qubits}b') for i in range(2**n_qubits)]] *)
Definition get_possible_states (n_qubits : nat) : list string :=
  map (format_binary n_qubits) (seq 0 (2 ^ n_qubits)).

(** The option the application preselects:
    [index=len(target_options)-1]. *)
Definition default_target (n_qubits : nat) : string :=
  nth (length (get_possible_states n_qubits) - 1)
      (get_possible_states n_qubits) EmptyString.

(* ================================================================= *)
(** ** Characters of target strings *)

(** The characters [int()] accepts, among those of [ascii]. *)
Definition is_digit (c : ascii) : bool :=
  andb (Nat.leb 48 (nat_of_ascii c)) (Nat.leb (nat_of_ascii c) 57).

Definition all_digits (s : string) : bool :=
  forallb is_digit (list_ascii_of_string s).

(** Some character of the string is an ASCII character (below U+0080) other
    than a digit. *)
Definition has_ascii_non_digit (s : string) : bool :=
  existsb (fun c => andb (Nat.ltb (nat_of_ascii c) 128) (negb (is_digit c)))
          (list_ascii_of_string s).

(** A digit string with every digit other than ['0'] replaced by ['1']. *)
Definition binarize (s : string) : string :=
  string_of_list_ascii
    (map (fun c => if Ascii.eqb c "0"%char then "0"%char else "1"%char)
         (list_ascii_of_string s)).

(** Number of ['0'] characters of a string. *)
Definition count_zeros (s : string) : nat :=
  length (filter (fun c => Ascii.eqb c "0"%char) (list_ascii_of_string s)).

(* ================================================================= *)
(** ** Circuits left behind by a construction *)





(* ================================================================= *)
(** ** Arithmetic of amplitudes *)

Ltac cunfold :=
  unfold lin, Cadd, Csub, Copp, Cscale, Cnorm2, C0, C1 in *; simpl in *.

(** Closes an equation between amplitudes that holds componentwise in the
    field of reals. *)
Ltac ceq :=
  repeat match goal with a : C |- _ => destruct a end;
  cunfold; f_equal; try field; try lra.

(** Splits an equation between explicit vectors into equations between
    real numbers. *)
Ltac vec_eq :=
  repeat match goal with
         | |- Some _ = Some _ => f_equal
         | |- _ :: _ = _ :: _ => f_equal
         | |- (_, _) = (_, _) => f_equal
         end.

Lemma inv_sqrt2_sqr : inv_sqrt2 * inv_sqrt2 = / 2.
Proof.
  unfold inv_sqrt2.
  assert (H : sqrt 2 * sqrt 2 = 2) by (apply sqrt_sqrt; lra).
  assert (N : sqrt 2 <> 0) by (intro E; rewrite E in H; lra).
  rewrite <- Rinv_mult, H. reflexivity.
Qed.

Lemma Cscale_1 (a : C) : Cscale 1 a = a.
Proof. ceq; ring. Qed.

Lemma Copp_involutive (a : C) : Copp (Copp a) = a.
Proof. ceq; ring. Qed.

Lemma hadamard_pair_plus (a b : C) :
  Cscale inv_sqrt2
    (Cadd (Cscale inv_sqrt2 (Cadd a b)) (Cscale inv_sqrt2 (Csub a b))) = a.
Proof.
  assert (E := inv_sqrt2_sqr). destruct a as [x y], b as [z w].
  cunfold. f_equal.
  - transitivity ((inv_sqrt2 * inv_sqrt2) * (2 * x)); [ring | rewrite E; field].
  - transitivity ((inv_sqrt2 * inv_sqrt2) * (2 * y)); [ring | rewrite E; field].
Qed.

Lemma hadamard_pair_minus (a b : C) :
  Cscale inv_sqrt2
    (Csub (Cscale inv_sqrt2 (Cadd a b)) (Cscale inv_sqrt2 (Csub a b))) = b.
Proof.
  assert (E := inv_sqrt2_sqr). destruct a as [x y], b as [z w].
  cunfold. f_equal.
  - transitivity ((inv_sqrt2 * inv_sqrt2) * (2 * z)); [ring | rewrite E; field].
  - transitivity ((inv_sqrt2 * inv_sqrt2) * (2 * w)); [ring | rewrite E; field].
Qed.

Lemma hadamard_pair_flip (a b : C) :
  Cscale inv_sqrt2
    (Csub (Cscale inv_sqrt2 (Csub a b)) (Cscale inv_sqrt2 (Cadd a b))) = Copp b.
Proof.
  assert (E := inv_sqrt2_sqr). destruct a as [x y], b as [z w].
  cunfold. f_equal.
  - transitivity ((inv_sqrt2 * inv_sqrt2) * (- 2 * z)); [ring | rewrite E; field].
  - transitivity ((inv_sqrt2 * inv_sqrt2) * (- 2 * w)); [ring | rewrite E; field].
Qed.

Lemma hadamard_pair_plus' (a b : C) :
  Cscale inv_sqrt2
    (Cadd (Cscale inv_sqrt2 (Csub a b)) (Cscale inv_sqrt2 (Cadd a b))) = a.
Proof.
  assert (E := inv_sqrt2_sqr). destruct a as [x y], b as [z w].
  cunfold. f_equal.
  - transitivity ((inv_sqrt2 * inv_sqrt2) * (2 * x)); [ring | rewrite E; field].
  - transitivity ((inv_sqrt2 * inv_sqrt2) * (2 * y)); [ring | rewrite E; field].
Qed.

Lemma hadamard_pair_norm (a b : C) :
  Cnorm2 (Cscale inv_sqrt2 (Cadd a b)) + Cnorm2 (Cscale inv_sqrt2 (Csub a b))
  = Cnorm2 a + Cnorm2 b.
Proof.
  assert (E := inv_sqrt2_sqr). destruct a as [x y], b as [z w].
  cunfold.
  transitivity ((inv_sqrt2 * inv_sqrt2) * (2 * (x * x + y * y + z * z + w * w)));
    [ring | rewrite E; field].
Qed.

(* ================================================================= *)
(** ** Index arithmetic *)

Lemma pow2_pos (n : nat) : (0 < 2 ^ n)%nat.
Proof. apply Nat.neq_0_lt_0, Nat.pow_nonzero. discriminate. Qed.

Lemma testbit_small (j m k : nat) :
  (j < 2 ^ m)%nat -> (m <= k)%nat -> Nat.testbit j k = false.
Proof.
  intros Hj Hk. rewrite Nat.testbit_eqb.
  assert (2 ^ m <= 2 ^ k)%nat by (apply Nat.pow_le_mono_r; lia).
  rewrite Nat.div_small by lia. reflexivity.
Qed.

Lemma lt_pow2_of_bits (x m : nat) :
  (forall k, (m <= k)%nat -> Nat.testbit x k = false) -> (x < 2 ^ m)%nat.
Proof.
  intros H.
  assert (E : x mod 2 ^ m = x).
  { apply Nat.bits_inj. intros k.
    destruct (Nat.lt_ge_cases k m) as [L|G].
    - now rewrite Nat.mod_pow2_bits_low.
    - rewrite Nat.mod_pow2_bits_high by exact G. symmetry. now apply H. }
  rewrite <- E. apply Nat.mod_upper_bound. apply Nat.pow_nonzero. lia.
Qed.

Lemma lxor_lt (a b m : nat) :
  (a < 2 ^ m)%nat -> (b < 2 ^ m)%nat -> (Nat.lxor a b < 2 ^ m)%nat.
Proof.
  intros Ha Hb. apply lt_pow2_of_bits. intros k Hk.
  now rewrite Nat.lxor_spec, (testbit_small a m k), (testbit_small b m k).
Qed.

Lemma pow2_lt_pow2 (q m : nat) : (q < m)%nat -> (2 ^ q < 2 ^ m)%nat.
Proof. intros. apply Nat.pow_lt_mono_r; lia. Qed.

Lemma lxor_pow2_lt (j m q : nat) :
  (j < 2 ^ m)%nat -> (q < m)%nat -> (Nat.lxor j (2 ^ q) < 2 ^ m)%nat.
Proof. intros. apply lxor_lt; auto using pow2_lt_pow2. Qed.

Lemma lxor_twice (i m : nat) : Nat.lxor (Nat.lxor i m) m = i.
Proof. now rewrite Nat.lxor_assoc, Nat.lxor_nilpotent, Nat.lxor_0_r. Qed.

Lemma pow2_add_lxor (j m : nat) :
  (j < 2 ^ m)%nat -> (2 ^ m + j)%nat = Nat.lxor (2 ^ m) j.
Proof.
  intros Hj. apply Nat.add_nocarry_lxor. apply Nat.bits_inj. intros k.
  rewrite Nat.land_spec, Nat.pow2_bits_eqb, Nat.bits_0.
  destruct (Nat.eqb_spec m k) as [->|]; [|reflexivity].
  now rewrite (testbit_small j k k).
Qed.

Lemma lxor_top_low (j m : nat) :
  (j < 2 ^ m)%nat -> Nat.lxor j (2 ^ m) = (2 ^ m + j)%nat.
Proof. intros. rewrite Nat.lxor_comm. symmetry. now apply pow2_add_lxor. Qed.

Lemma lxor_top_high (j m : nat) :
  (j < 2 ^ m)%nat -> Nat.lxor (2 ^ m + j) (2 ^ m) = j.
Proof.
  intros. rewrite pow2_add_lxor by assumption.
  now rewrite (Nat.lxor_comm (2 ^ m) j), lxor_twice.
Qed.

Lemma lxor_low_high (j m q : nat) :
  (j < 2 ^ m)%nat -> (q < m)%nat ->
  Nat.lxor (2 ^ m + j) (2 ^ q) = (2 ^ m + Nat.lxor j (2 ^ q))%nat.
Proof.
  intros Hj Hq. rewrite pow2_add_lxor by assumption.
  rewrite pow2_add_lxor by (now apply lxor_pow2_lt).
  now rewrite Nat.lxor_assoc.
Qed.

Lemma testbit_high_top (j m : nat) :
  (j < 2 ^ m)%nat -> Nat.testbit (2 ^ m + j) m = true.
Proof.
  intros. rewrite pow2_add_lxor by assumption.
  rewrite Nat.lxor_spec, Nat.pow2_bits_true, (testbit_small j m m) by auto.
  reflexivity.
Qed.

Lemma testbit_high_low (j m q : nat) :
  (j < 2 ^ m)%nat -> (q < m)%nat ->
  Nat.testbit (2 ^ m + j) q = Nat.testbit j q.
Proof.
  intros. rewrite pow2_add_lxor by assumption.
  rewrite Nat.lxor_spec, Nat.pow2_bits_false by lia. reflexivity.
Qed.

Lemma testbit_lxor_pow2_same (i q : nat) :
  Nat.testbit (Nat.lxor i (2 ^ q)) q = negb (Nat.testbit i q).
Proof.
  rewrite Nat.lxor_spec, Nat.pow2_bits_true. now destruct (Nat.testbit i q).
Qed.

Lemma testbit_lxor_pow2_other (i q k : nat) :
  q <> k -> Nat.testbit (Nat.lxor i (2 ^ q)) k = Nat.testbit i k.
Proof.
  intros. rewrite Nat.lxor_spec, Nat.pow2_bits_false by assumption.
  now destruct (Nat.testbit i k).
Qed.

Lemma forallb_ext_on {A : Type} (f g : A -> bool) (l : list A) :
  (forall x, In x l -> f x = g x) -> forallb f l = forallb g l.
Proof.
  induction l as [|a l IH]; intros H; [reflexivity|].
  simpl. rewrite (H a) by (now left). f_equal. apply IH.
  intros x Hx. apply H. now right.
Qed.

Lemma forallb_testbit_ones (i n : nat) :
  (i < 2 ^ n)%nat ->
  forallb (Nat.testbit i) (seq 0 n) = Nat.eqb i (2 ^ n - 1).
Proof.
  intros Hi. destruct (Nat.eqb_spec i (2 ^ n - 1)) as [->|Hne].
  - apply forallb_forall. intros k Hk. apply in_seq in Hk.
    replace (2 ^ n - 1)%nat with (Nat.ones n)
      by (rewrite Nat.ones_equiv; lia).
    apply Nat.ones_spec_low. lia.
  - destruct (forallb (Nat.testbit i) (seq 0 n)) eqn:E; [|reflexivity].
    exfalso. apply Hne. rewrite forallb_forall in E.
    replace (2 ^ n - 1)%nat with (Nat.ones n)
      by (rewrite Nat.ones_equiv; lia).
    apply Nat.bits_inj. intros k.
    destruct (Nat.lt_ge_cases k n) as [L|G].
    + rewrite Nat.ones_spec_low by lia. apply E, in_seq. lia.
    + rewrite Nat.ones_spec_high by lia. now apply (testbit_small i n k).
Qed.

(* ================================================================= *)
(** ** Vectors given by their entries *)

Lemma tabulate_length (f : nat -> C) (len : nat) :
  length (tabulate f len) = len.
Proof. unfold tabulate. now rewrite length_map, length_seq. Qed.

Lemma amp_at_tabulate (f : nat -> C) (len i : nat) :
  (i < len)%nat -> amp_at (tabulate f len) i = f i.
Proof.
  intros Hi. unfold amp_at, tabulate.
  rewrite (nth_indep _ C0 (f 0%nat)) by (now rewrite length_map, length_seq).
  rewrite map_nth, seq_nth by assumption. reflexivity.
Qed.

Lemma tabulate_ext (f g : nat -> C) (len : nat) :
  (forall i, (i < len)%nat -> f i = g i) -> tabulate f len = tabulate g len.
Proof.
  intros H. unfold tabulate. apply map_ext_in. intros i Hi.
  apply in_seq in Hi. apply H. lia.
Qed.

Lemma tabulate_amp_at (v : statevector) :
  tabulate (amp_at v) (length v) = v.
Proof.
  apply (nth_ext _ _ C0 C0).
  - apply tabulate_length.
  - intros i Hi. rewrite tabulate_length in Hi.
    now apply (amp_at_tabulate (amp_at v)).
Qed.

Lemma vector_ext (u w : statevector) :
  length u = length w ->
  (forall i, (i < length u)%nat -> amp_at u i = amp_at w i) -> u = w.
Proof. intros L H. now apply (nth_ext _ _ C0 C0). Qed.

Lemma tabulate_app (f : nat -> C) (a b : nat) :
  tabulate f (a + b) = tabulate f a ++ tabulate (fun j => f (a + j)%nat) b.
Proof.
  unfold tabulate. rewrite seq_app, map_app. f_equal.
  assert (G : forall s, map f (seq (s + a) b)
                        = map (fun j => f (a + j)%nat) (seq s b)).
  { induction b as [|b IH]; intros s; [reflexivity|].
    simpl. f_equal; [f_equal; lia|]. apply (IH (S s)). }
  apply (G 0%nat).
Qed.

Lemma amp_at_app_low (lo hi : statevector) (i : nat) :
  (i < length lo)%nat -> amp_at (lo ++ hi) i = amp_at lo i.
Proof. intros. unfold amp_at. now apply app_nth1. Qed.

Lemma amp_at_app_high (lo hi : statevector) (j : nat) :
  amp_at (lo ++ hi) (length lo + j) = amp_at hi j.
Proof. unfold amp_at. apply app_nth2_plus. Qed.

Lemma split_half (m : nat) (v : statevector) :
  length v = (2 ^ S m)%nat ->
  exists lo hi, v = lo ++ hi /\ length lo = (2 ^ m)%nat
                /\ length hi = (2 ^ m)%nat.
Proof.
  intros L. exists (firstn (2 ^ m) v), (skipn (2 ^ m) v).
  rewrite firstn_skipn, length_firstn, length_skipn, L.
  simpl. repeat split; lia.
Qed.

(* ================================================================= *)
(** ** The gates, entry by entry *)

Lemma pauliX_length (q : nat) (v : statevector) :
  length (pauliX q v) = length v.
Proof. apply tabulate_length. Qed.

Lemma hadamard_length (q : nat) (v : statevector) :
  length (hadamard q v) = length v.
Proof. apply tabulate_length. Qed.

Lemma multiControlledNOT_length (cs : list nat) (t : nat) (v : statevector) :
  length (multiControlledNOT cs t v) = length v.
Proof. apply tabulate_length. Qed.

Lemma negate_at_length (k : nat) (v : statevector) :
  length (negate_at k v) = length v.
Proof. apply tabulate_length. Qed.

Lemma xor_perm_length (m : nat) (v : statevector) :
  length (xor_perm m v) = length v.
Proof. apply tabulate_length. Qed.

Lemma apply_instruction_length (g : instruction) (v : statevector) :
  length (apply_instruction g v) = length v.
Proof.
  destruct g; simpl;
    auto using pauliX_length, hadamard_length, multiControlledNOT_length.
Qed.

Lemma simulate_length (gs : list instruction) (v : statevector) :
  length (simulate gs v) = length v.
Proof.
  revert v. induction gs as [|g gs IH]; intros v; [reflexivity|].
  simpl. unfold simulate in IH. now rewrite IH, apply_instruction_length.
Qed.

Lemma simulate_app (gs hs : list instruction) (v : statevector) :
  simulate (gs ++ hs) v = simulate hs (simulate gs v).
Proof. unfold simulate. apply fold_left_app. Qed.

Lemma pauliX_xor_perm (q : nat) (v : statevector) :
  pauliX q v = xor_perm (2 ^ q) v.
Proof. reflexivity. Qed.

Lemma xor_perm_0 (v : statevector) : xor_perm 0 v = v.
Proof.
  unfold xor_perm. transitivity (tabulate (amp_at v) (length v)).
  - apply tabulate_ext. intros i _. now rewrite Nat.lxor_0_r.
  - apply tabulate_amp_at.
Qed.

Lemma xor_perm_compose (n a b : nat) (v : statevector) :
  length v = (2 ^ n)%nat -> (a < 2 ^ n)%nat ->
  xor_perm a (xor_perm b v) = xor_perm (Nat.lxor b a) v.
Proof.
  intros L Ha. unfold xor_perm at 1 3. rewrite xor_perm_length.
  apply tabulate_ext. intros i Hi. rewrite L in Hi.
  unfold xor_perm. rewrite amp_at_tabulate by (rewrite L; now apply lxor_lt).
  now rewrite Nat.lxor_assoc, (Nat.lxor_comm a b).
Qed.

Lemma xor_mask_lt (n : nat) (qs : list nat) :
  Forall (fun q => (q < n)%nat) qs -> (xor_mask qs < 2 ^ n)%nat.
Proof.
  induction 1 as [|q qs Hq _ IH]; simpl.
  - apply pow2_pos.
  - apply lxor_lt; auto using pow2_lt_pow2.
Qed.

(** A layer of X gates permutes the amplitudes by the xor of their masks. *)
Lemma simulate_x_layer (n : nat) (qs : list nat) (v : statevector) :
  length v = (2 ^ n)%nat -> Forall (fun q => (q < n)%nat) qs ->
  simulate (map XGate qs) v = xor_perm (xor_mask qs) v.
Proof.
  intros L H. revert v L. induction H as [|q qs Hq Hqs IH]; intros v L.
  - simpl. now rewrite xor_perm_0.
  - simpl. unfold simulate in IH. rewrite IH by (now rewrite pauliX_length).
    rewrite pauliX_xor_perm.
    apply (xor_perm_compose n); auto using xor_mask_lt.
Qed.

(** H, MCX controlled by all lower qubits, H on the last qubit: the sign of
    the all-ones index flips. *)
Lemma mcz_negates_last (m : nat) (v : statevector) :
  length v = (2 ^ S m)%nat ->
  hadamard m (multiControlledNOT (seq 0 m) m (hadamard m v))
  = negate_at (2 ^ S m - 1) v.
Proof.
  intros L. set (N := (2 ^ S m)%nat) in *.
  assert (Hp : forall i, (i < N)%nat -> (Nat.lxor i (2 ^ m) < N)%nat)
    by (intros; apply lxor_pow2_lt; [assumption | lia]).
  assert (Hc : forall i, forallb (Nat.testbit (Nat.lxor i (2 ^ m))) (seq 0 m)
                         = forallb (Nat.testbit i) (seq 0 m)).
  { intros i. apply forallb_ext_on. intros k Hk. apply in_seq in Hk.
    apply testbit_lxor_pow2_other. lia. }
  assert (HH : forall i, (i < N)%nat ->
             amp_at (hadamard m v) i
             = if Nat.testbit i m
               then Cscale inv_sqrt2
                      (Csub (amp_at v (Nat.lxor i (2 ^ m))) (amp_at v i))
               else Cscale inv_sqrt2
                      (Cadd (amp_at v i) (amp_at v (Nat.lxor i (2 ^ m))))).
  { intros i Hi. unfold hadamard. now rewrite amp_at_tabulate by lia. }
  unfold negate_at, hadamard at 1.
  rewrite multiControlledNOT_length, hadamard_length.
  apply tabulate_ext. intros i Hi. rewrite L in Hi. cbv zeta.
  unfold multiControlledNOT. rewrite hadamard_length, L.
  rewrite !amp_at_tabulate by auto.
  rewrite Hc, lxor_twice, !HH by auto.
  rewrite lxor_twice, testbit_lxor_pow2_same.
  assert (E : Nat.eqb i (N - 1)
              = forallb (Nat.testbit i) (seq 0 m) && Nat.testbit i m).
  { unfold N in *. rewrite <- (forallb_testbit_ones i (S m)) by assumption.
    rewrite seq_S, forallb_app. simpl. now rewrite andb_true_r. }
  rewrite E.
  destruct (forallb (Nat.testbit i) (seq 0 m)), (Nat.testbit i m); simpl.
  - apply hadamard_pair_flip.
  - apply hadamard_pair_plus'.
  - apply hadamard_pair_minus.
  - apply hadamard_pair_plus.
Qed.

(* ================================================================= *)
(** ** What the constructions append *)

Lemma appends_skip (n : nat) : appends skip n [].
Proof. intros d. unfold skip. now rewrite app_nil_r. Qed.

Lemma appends_seq (a b : circ_op) (n : nat) (g h : list instruction) :
  appends a n g -> appends b n h -> appends (a ;; b) n (g ++ h).
Proof.
  intros Ha Hb d. unfold seq_op. now rewrite Ha, Hb, app_assoc.
Qed.

Lemma appends_append (g : instruction) (qargs : list nat) (n : nat) :
  Forall (fun q => (q < n)%nat) qargs -> appends (append g qargs) n [g].
Proof.
  intros H d. unfold append. simpl.
  replace (forallb (fun q => Nat.ltb q n) qargs) with true; [reflexivity|].
  symmetry. apply forallb_forall. intros q Hq.
  apply Nat.ltb_lt. rewrite Forall_forall in H. now apply H.
Qed.

Lemma appends_qc_x (q n : nat) : (q < n)%nat -> appends (qc_x q) n [XGate q].
Proof. intros. apply appends_append. now constructor. Qed.

Lemma appends_qc_h (q n : nat) : (q < n)%nat -> appends (qc_h q) n [HGate q].
Proof. intros. apply appends_append. now constructor. Qed.

Lemma seq_below (n : nat) : Forall (fun q => (q < n)%nat) (seq 0 n).
Proof. apply Forall_forall. intros q Hq. apply in_seq in Hq. lia. Qed.

Lemma appends_append_range (gate : nat -> instruction) (n : nat) :
  (1 <= n)%nat -> appends (append_range gate n) n (map gate (seq 0 n)).
Proof.
  intros Hn d. unfold append_range. simpl.
  replace (forallb (fun q => Nat.ltb q n) (seq 0 n)) with true.
  - now replace (Nat.eqb n 0) with false by (symmetry; apply Nat.eqb_neq; lia).
  - symmetry. apply forallb_forall. intros q Hq. apply in_seq in Hq.
    apply Nat.ltb_lt. lia.
Qed.

Lemma appends_h_range (n : nat) :
  (1 <= n)%nat -> appends (qc_h_range n) n (h_layer n).
Proof. apply appends_append_range. Qed.

Lemma appends_x_range (n : nat) :
  (1 <= n)%nat -> appends (qc_x_range n) n (x_layer (seq 0 n)).
Proof. apply appends_append_range. Qed.

Lemma appends_mcz_last (n : nat) :
  (1 <= n)%nat -> appends (mcz_last n) n (mcz_gates n).
Proof.
  intros Hn. unfold mcz_last, mcz_gates.
  apply (appends_seq _ _ n [_] [_; _]); [apply appends_qc_h; lia|].
  apply (appends_seq _ _ n [_] [_]); [|apply appends_qc_h; lia].
  apply appends_append. apply Forall_app. split.
  - apply Forall_forall. intros q Hq. apply in_seq in Hq. lia.
  - constructor; [lia | constructor].
Qed.

Lemma appends_x_where_zero_from (n k : nat) (bits : list nat) :
  Forall (fun q => (q < n)%nat) (zero_positions k bits) ->
  appends (for_each (combine (seq k (length bits)) bits)
             (fun p => if Nat.eqb (snd p) 0 then qc_x (fst p) else skip))
          n (x_layer (zero_positions k bits)).
Proof.
  revert k. induction bits as [|b r IH]; intros k H; simpl.
  - apply appends_skip.
  - simpl in H. destruct (Nat.eqb b 0).
    + inversion H; subst.
      apply (appends_seq _ _ n [_]); auto using appends_qc_x.
    + apply (appends_seq _ _ n []); auto using appends_skip.
Qed.

Lemma appends_x_where_zero (n : nat) (bits : list nat) :
  Forall (fun q => (q < n)%nat) (zero_positions 0 bits) ->
  appends (x_where_zero bits) n (x_layer (zero_positions 0 bits)).
Proof. apply appends_x_where_zero_from. Qed.

Lemma zero_positions_below (k : nat) (bits : list nat) :
  Forall (fun q => (q < k + length bits)%nat) (zero_positions k bits).
Proof.
  revert k. induction bits as [|b r IH]; intros k; simpl; [constructor|].
  assert (T : Forall (fun q => (q < k + S (length r))%nat)
                     (zero_positions (S k) r)).
  { eapply Forall_impl; [|apply (IH (S k))]. simpl. intros; lia. }
  destruct (Nat.eqb b 0); [constructor; [lia | exact T] | exact T].
Qed.

Lemma appends_apply_oracle_zeros (n : nat) (t : string) (bits : list nat) :
  (1 <= n)%nat -> target_bits t = Some bits ->
  Forall (fun q => (q < n)%nat) (zero_positions 0 bits) ->
  appends (apply_oracle n t) n (oracle_gates n bits).
Proof.
  intros Hn Hb Z d. unfold apply_oracle. rewrite Hb.
  apply (appends_seq _ _ n _ _ (appends_x_where_zero n bits Z)).
  apply appends_seq; auto using appends_mcz_last, appends_x_where_zero.
Qed.

Lemma appends_apply_oracle (n : nat) (t : string) (bits : list nat) :
  (1 <= n)%nat -> target_bits t = Some bits -> (length bits <= n)%nat ->
  appends (apply_oracle n t) n (oracle_gates n bits).
Proof.
  intros Hn Hb Hl. apply appends_apply_oracle_zeros; auto.
  eapply Forall_impl; [|apply zero_positions_below]. simpl. intros; lia.
Qed.

Lemma appends_apply_diffusion (n : nat) :
  (1 <= n)%nat -> appends (apply_diffusion n) n (diffusion_gates n).
Proof.
  intros Hn. unfold apply_diffusion, diffusion_gates.
  repeat apply appends_seq;
    auto using appends_h_range, appends_x_range, appends_mcz_last.
Qed.

Lemma appends_repeat_op (k n : nat) (body : circ_op) (gs : list instruction) :
  appends body n gs -> appends (repeat_op k body) n (iterate_gates k gs).
Proof.
  intros H. induction k as [|k IH]; simpl.
  - apply appends_skip.
  - now apply appends_seq.
Qed.

Lemma appends_measure_all (n : nat) : appends qc_measure_all n [MeasureAll].
Proof. intros d. reflexivity. Qed.

(* ================================================================= *)
(** ** Binary target strings *)

Lemma int_of_binary_char (c : ascii) :
  is_binary_char c = true -> int_of_char c = Some (bit_of_char c).
Proof.
  unfold is_binary_char, bit_of_char. intros H.
  apply orb_true_iff in H. destruct H as [H|H];
    apply Ascii.eqb_eq in H; subst c; reflexivity.
Qed.

Lemma ints_of_binary_chars (cs : list ascii) :
  forallb is_binary_char cs = true ->
  ints_of_chars cs = Some (map bit_of_char cs).
Proof.
  induction cs as [|c r IH]; simpl; intros H; [reflexivity|].
  apply andb_true_iff in H. destruct H as [Hc Hr].
  now rewrite (int_of_binary_char c Hc), (IH Hr).
Qed.

Lemma forallb_rev {A : Type} (f : A -> bool) (l : list A) :
  forallb f (rev l) = forallb f l.
Proof.
  induction l as [|a l IH]; simpl; [reflexivity|].
  rewrite forallb_app, IH. simpl. rewrite andb_true_r. apply andb_comm.
Qed.

Lemma length_list_ascii (s : string) :
  length (list_ascii_of_string s) = String.length s.
Proof. induction s as [|c s IH]; simpl; congruence. Qed.

Lemma target_bits_binary (t : string) :
  is_binary t = true -> target_bits t = Some (binary_bits t).
Proof.
  intros H. unfold target_bits, binary_bits.
  apply ints_of_binary_chars. now rewrite forallb_rev.
Qed.

Lemma binary_bits_length (t : string) :
  length (binary_bits t) = String.length t.
Proof.
  unfold binary_bits. now rewrite length_map, length_rev, length_list_ascii.
Qed.

Lemma index_le_app (l : list nat) (b : nat) :
  index_le (l ++ [b])
  = (index_le l + 2 ^ length l * (if Nat.eqb b 0 then 0 else 1))%nat.
Proof.
  induction l as [|a l IH]; simpl.
  - destruct (Nat.eqb b 0); lia.
  - rewrite IH. destruct (Nat.eqb a 0), (Nat.eqb b 0); lia.
Qed.

Lemma bit_of_char_flag (c : ascii) :
  (if Nat.eqb (bit_of_char c) 0 then 0 else 1)%nat = bit_of_char c.
Proof. unfold bit_of_char. now destruct (Ascii.eqb c "1"). Qed.

Lemma fold_index_le (cs : list ascii) (acc : nat) :
  fold_left (fun a c => (2 * a + (if Ascii.eqb c "1"%char then 1 else 0))%nat)
            cs acc
  = (2 ^ length cs * acc + index_le (map bit_of_char (rev cs)))%nat.
Proof.
  revert acc. induction cs as [|c r IH]; intros acc; simpl; [lia|].
  rewrite IH, map_app. simpl map. rewrite index_le_app, bit_of_char_flag.
  rewrite length_map, length_rev. unfold bit_of_char.
  destruct (Ascii.eqb c "1"); lia.
Qed.

(** The little-endian value of the bits [apply_oracle] extracts is the
    integer the target string denotes. *)
Lemma index_le_binary_bits (t : string) :
  index_le (binary_bits t) = target_index t.
Proof.
  unfold target_index, binary_bits. rewrite fold_index_le. lia.
Qed.

Lemma index_le_lt (bits : list nat) : (index_le bits < 2 ^ length bits)%nat.
Proof.
  induction bits as [|b r IH]; simpl; [lia|].
  destruct (Nat.eqb b 0); lia.
Qed.

Lemma mask_le_lt (bits : list nat) : (mask_le bits < 2 ^ length bits)%nat.
Proof.
  induction bits as [|b r IH]; simpl; [lia|].
  destruct (Nat.eqb b 0); lia.
Qed.

Lemma xor_mask_zero_positions (k : nat) (bits : list nat) :
  xor_mask (zero_positions k bits) = (2 ^ k * mask_le bits)%nat.
Proof.
  revert k. induction bits as [|b r IH]; intros k; simpl; [lia|].
  destruct (Nat.eqb b 0); simpl; rewrite IH.
  - transitivity (2 ^ k + 2 ^ S k * mask_le r)%nat; [|simpl; lia].
    symmetry. apply Nat.add_nocarry_lxor. apply Nat.bits_inj. intros j.
    rewrite Nat.land_spec, Nat.pow2_bits_eqb, Nat.bits_0.
    destruct (Nat.eqb_spec k j) as [->|]; [|reflexivity].
    rewrite (Nat.mul_comm (2 ^ S j)), Nat.mul_pow2_bits_low by lia.
    reflexivity.
  - simpl. lia.
Qed.

Lemma testbit_mask_index (bits : list nat) (k : nat) :
  Nat.testbit (mask_le bits) k
  = (Nat.ltb k (length bits)) && negb (Nat.testbit (index_le bits) k).
Proof.
  revert k. induction bits as [|b r IH]; intros k.
  - simpl mask_le. simpl index_le. now rewrite Nat.bits_0.
  - assert (M : mask_le (b :: r)
                = (2 * mask_le r + Nat.b2n (Nat.eqb b 0))%nat)
      by (simpl; destruct (Nat.eqb b 0); simpl; lia).
    assert (I : index_le (b :: r)
                = (2 * index_le r + Nat.b2n (negb (Nat.eqb b 0)))%nat)
      by (simpl; destruct (Nat.eqb b 0); simpl; lia).
    rewrite M, I. destruct k as [|k].
    + rewrite !Nat.testbit_0_r. simpl. now destruct (Nat.eqb b 0).
    + rewrite !Nat.testbit_succ_r, IH. reflexivity.
Qed.

(** Xor with the mask of the zero bits turns the all-ones index into the
    index of the target. *)
Lemma ones_lxor_mask (bits : list nat) :
  Nat.lxor (2 ^ length bits - 1) (mask_le bits) = index_le bits.
Proof.
  replace (2 ^ length bits - 1)%nat with (Nat.ones (length bits))
    by (rewrite Nat.ones_equiv; lia).
  apply Nat.bits_inj. intros k.
  rewrite Nat.lxor_spec, testbit_mask_index.
  destruct (Nat.lt_ge_cases k (length bits)) as [L|G].
  - rewrite Nat.ones_spec_low by lia.
    replace (Nat.ltb k (length bits)) with true
      by (symmetry; now apply Nat.ltb_lt).
    simpl. now destruct (Nat.testbit (index_le bits) k).
  - rewrite Nat.ones_spec_high by lia.
    replace (Nat.ltb k (length bits)) with false
      by (symmetry; now apply Nat.ltb_ge).
    simpl. symmetry. apply (testbit_small _ (length bits)); auto.
    apply index_le_lt.
Qed.

(* ================================================================= *)
(** ** The oracle as a sign flip *)

Lemma xor_perm_negate (n k m : nat) (v : statevector) :
  length v = (2 ^ n)%nat -> (m < 2 ^ n)%nat ->
  xor_perm m (negate_at k (xor_perm m v)) = negate_at (Nat.lxor k m) v.
Proof.
  intros L Hm. unfold negate_at at 2. unfold xor_perm at 1.
  rewrite negate_at_length, xor_perm_length.
  apply tabulate_ext. intros i Hi. rewrite L in Hi.
  assert (Hx : (Nat.lxor i m < 2 ^ n)%nat) by (now apply lxor_lt).
  unfold negate_at. rewrite xor_perm_length, amp_at_tabulate by lia.
  unfold xor_perm. rewrite amp_at_tabulate by lia. rewrite lxor_twice.
  destruct (Nat.eqb_spec (Nat.lxor i m) k) as [E|E],
           (Nat.eqb_spec i (Nat.lxor k m)) as [F|F]; try reflexivity.
  - exfalso. apply F. now rewrite <- E, lxor_twice.
  - exfalso. apply E. now rewrite F, lxor_twice.
Qed.

Lemma simulate_mcz_gates (n : nat) (v : statevector) :
  (1 <= n)%nat -> length v = (2 ^ n)%nat ->
  simulate (mcz_gates n) v = negate_at (2 ^ n - 1) v.
Proof.
  intros Hn L. destruct n as [|m]; [lia|].
  unfold mcz_gates. replace (S m - 1)%nat with m by lia.
  simpl. now apply mcz_negates_last.
Qed.

(** The gates of the oracle for the bit list [bits] flip the sign of the
    amplitude at the little-endian value of [bits] and nothing else. *)
Lemma simulate_oracle_gates (n : nat) (bits : list nat) (v : statevector) :
  (1 <= n)%nat -> length bits = n -> length v = (2 ^ n)%nat ->
  simulate (oracle_gates n bits) v = negate_at (index_le bits) v.
Proof.
  intros Hn Lb L. unfold oracle_gates.
  assert (Z : Forall (fun q => (q < n)%nat) (zero_positions 0 bits)).
  { eapply Forall_impl; [|apply zero_positions_below]. simpl. intros; lia. }
  assert (M : xor_mask (zero_positions 0 bits) = mask_le bits)
    by (rewrite xor_mask_zero_positions; simpl; lia).
  assert (Hm : (mask_le bits < 2 ^ n)%nat) by (rewrite <- Lb; apply mask_le_lt).
  rewrite !simulate_app. unfold x_layer.
  rewrite (simulate_x_layer n _ v) by assumption.
  rewrite simulate_mcz_gates by (now rewrite ?xor_perm_length).
  rewrite (simulate_x_layer n)
    by (now rewrite ?negate_at_length, ?xor_perm_length).
  rewrite M, (xor_perm_negate n) by assumption.
  now rewrite <- Lb, ones_lxor_mask.
Qed.

Lemma amp_at_negate_at (k i : nat) (v : statevector) :
  (i < length v)%nat ->
  amp_at (negate_at k v) i
  = if Nat.eqb i k then Copp (amp_at v i) else amp_at v i.
Proof. intros. unfold negate_at. now rewrite amp_at_tabulate. Qed.

Lemma negate_at_twice (k : nat) (v : statevector) :
  negate_at k (negate_at k v) = v.
Proof.
  apply vector_ext; [now rewrite !negate_at_length|].
  intros i Hi. rewrite !negate_at_length in Hi.
  rewrite !amp_at_negate_at by (now rewrite ?negate_at_length).
  destruct (Nat.eqb i k); [apply Copp_involutive | reflexivity].
Qed.

Lemma gates_of_appends (op : circ_op) (n : nat) (gs : list instruction) :
  appends op n gs -> gates_of op n = Some gs.
Proof. intros H. unfold gates_of. now rewrite H. Qed.

Lemma run_on_appends (op : circ_op) (n : nat) (gs : list instruction)
    (v : statevector) :
  appends op n gs -> run_on op n v = Some (simulate gs v).
Proof. intros H. unfold run_on. now rewrite (gates_of_appends op n gs). Qed.

Lemma run_on_apply_oracle (n : nat) (t : string) (v : statevector) :
  (1 <= n)%nat -> String.length t = n -> is_binary t = true ->
  length v = (2 ^ n)%nat ->
  run_on (apply_oracle n t) n v = Some (negate_at (target_index t) v).
Proof.
  intros Hn Lt Bt L.
  assert (Lb : length (binary_bits t) = n)
    by (now rewrite binary_bits_length).
  rewrite (run_on_appends _ n (oracle_gates n (binary_bits t))).
  - rewrite simulate_oracle_gates by assumption.
    now rewrite index_le_binary_bits.
  - apply appends_apply_oracle; auto using target_bits_binary. lia.
Qed.

(* ================================================================= *)
(** ** Gates on the two halves of a vector *)

Lemma vzip_length (f : C -> C -> C) (u w : statevector) :
  length u = length w -> length (vzip f u w) = length u.
Proof.
  intros L. unfold vzip. rewrite length_map, length_combine. lia.
Qed.

Lemma vzip_app (f : C -> C -> C) (a b c d : statevector) :
  length a = length c ->
  vzip f (a ++ b) (c ++ d) = vzip f a c ++ vzip f b d.
Proof.
  revert c. induction a as [|x a IH]; intros [|z c] L;
    simpl in *; try discriminate; [reflexivity|].
  unfold vzip in *. simpl. f_equal. apply IH. lia.
Qed.

Lemma vzip_ext (f g : C -> C -> C) (u w : statevector) :
  (forall a b, f a b = g a b) -> vzip f u w = vzip g u w.
Proof. intros H. unfold vzip. apply map_ext. intros [a b]. apply H. Qed.

Lemma vzip_repeat (f : C -> C -> C) (a b : C) (k : nat) :
  vzip f (repeat a k) (repeat b k) = repeat (f a b) k.
Proof.
  induction k as [|k IH]; [reflexivity|].
  unfold vzip in *. simpl. f_equal. exact IH.
Qed.

Lemma vzip_const (f : C -> C -> C) (c : C) (v : statevector) :
  vzip f v (repeat c (length v)) = map (fun a => f a c) v.
Proof.
  induction v as [|a v IH]; [reflexivity|].
  unfold vzip in *. simpl. f_equal. exact IH.
Qed.

Lemma vzip_interchange (f g : C -> C -> C) :
  (forall a b c d, f (g a b) (g c d) = g (f a c) (f b d)) ->
  forall a b c d : statevector,
    length a = length b -> length a = length c -> length a = length d ->
    vzip f (vzip g a b) (vzip g c d) = vzip g (vzip f a c) (vzip f b d).
Proof.
  intros H. induction a as [|x a IH]; intros [|y b] [|z c] [|w d];
    simpl; intros; try discriminate; try reflexivity.
  unfold vzip in *. simpl. f_equal; [apply H|]. apply IH; lia.
Qed.

Lemma vzip_had_plus_inv (lo hi : statevector) :
  length lo = length hi ->
  vzip had_plus (vzip had_plus lo hi) (vzip had_minus lo hi) = lo.
Proof.
  revert hi. induction lo as [|a lo IH]; intros [|b hi]; simpl;
    intros; try discriminate; try reflexivity.
  unfold vzip in *. simpl. f_equal; [apply hadamard_pair_plus|].
  apply IH. lia.
Qed.

Lemma vzip_had_minus_inv (lo hi : statevector) :
  length lo = length hi ->
  vzip had_minus (vzip had_plus lo hi) (vzip had_minus lo hi) = hi.
Proof.
  revert hi. induction lo as [|a lo IH]; intros [|b hi]; simpl;
    intros; try discriminate; try reflexivity.
  unfold vzip in *. simpl. f_equal; [apply hadamard_pair_minus|].
  apply IH. lia.
Qed.

Lemma amp_at_vzip (f : C -> C -> C) (u w : statevector) (i : nat) :
  length u = length w -> (i < length u)%nat ->
  amp_at (vzip f u w) i = f (amp_at u i) (amp_at w i).
Proof.
  revert w i. induction u as [|a u IH]; intros [|b w] i L Hi;
    simpl in *; try discriminate; try lia.
  destruct i as [|i]; [reflexivity|].
  unfold amp_at, vzip in *. simpl. apply IH; lia.
Qed.

Section Halves.

Variable m : nat.
Variables lo hi : statevector.
Hypothesis Llo : length lo = (2 ^ m)%nat.
Hypothesis Lhi : length hi = (2 ^ m)%nat.

Lemma length_halves : length (lo ++ hi) = (2 ^ m + 2 ^ m)%nat.
Proof. rewrite length_app. lia. Qed.

Lemma pauliX_low (q : nat) :
  (q < m)%nat -> pauliX q (lo ++ hi) = pauliX q lo ++ pauliX q hi.
Proof.
  intros Hq. unfold pauliX. rewrite length_halves, tabulate_app, Llo, Lhi.
  f_equal; apply tabulate_ext; intros i Hi.
  - apply amp_at_app_low. rewrite Llo. now apply lxor_pow2_lt.
  - rewrite lxor_low_high by assumption. rewrite <- Llo.
    apply amp_at_app_high.
Qed.

Lemma pauliX_top : pauliX m (lo ++ hi) = hi ++ lo.
Proof.
  unfold pauliX. rewrite length_halves, tabulate_app.
  transitivity (tabulate (amp_at hi) (2 ^ m) ++ tabulate (amp_at lo) (2 ^ m)).
  - f_equal; apply tabulate_ext; intros i Hi.
    + rewrite lxor_top_low by assumption. rewrite <- Llo.
      apply amp_at_app_high.
    + rewrite lxor_top_high by assumption. apply amp_at_app_low. lia.
  - replace (tabulate (amp_at hi) (2 ^ m)) with hi
      by (rewrite <- Lhi; symmetry; apply tabulate_amp_at).
    replace (tabulate (amp_at lo) (2 ^ m)) with lo
      by (rewrite <- Llo; symmetry; apply tabulate_amp_at).
    reflexivity.
Qed.

Lemma hadamard_low (q : nat) :
  (q < m)%nat -> hadamard q (lo ++ hi) = hadamard q lo ++ hadamard q hi.
Proof.
  intros Hq. unfold hadamard.
  rewrite length_halves, tabulate_app, Llo, Lhi.
  f_equal; apply tabulate_ext; intros i Hi; cbv zeta.
  - rewrite !amp_at_app_low; try reflexivity; rewrite Llo; auto.
    now apply lxor_pow2_lt.
  - rewrite lxor_low_high, testbit_high_low by assumption.
    rewrite <- Llo. now rewrite !amp_at_app_high.
Qed.

Lemma hadamard_top :
  hadamard m (lo ++ hi) = vzip had_plus lo hi ++ vzip had_minus lo hi.
Proof.
  apply vector_ext.
  - rewrite hadamard_length, !length_app, !vzip_length; lia.
  - intros i Hi. rewrite hadamard_length, length_halves in Hi.
    unfold hadamard. rewrite amp_at_tabulate by (rewrite length_halves; lia).
    cbv zeta. destruct (Nat.lt_ge_cases i (2 ^ m)) as [L|G].
    + rewrite (testbit_small i m m), lxor_top_low by auto.
      rewrite (amp_at_app_low lo hi i) by lia.
      rewrite (amp_at_app_low (vzip had_plus lo hi))
        by (rewrite vzip_length; lia).
      rewrite amp_at_vzip by lia.
      replace (2 ^ m + i)%nat with (length lo + i)%nat by lia.
      now rewrite amp_at_app_high.
    + replace i with (2 ^ m + (i - 2 ^ m))%nat by lia.
      set (j := (i - 2 ^ m)%nat). assert (Hj : (j < 2 ^ m)%nat) by lia.
      rewrite testbit_high_top, lxor_top_high by assumption.
      rewrite (amp_at_app_low lo hi j) by lia.
      assert (E : amp_at (lo ++ hi) (2 ^ m + j) = amp_at hi j)
        by (rewrite <- Llo; apply amp_at_app_high).
      assert (F : amp_at (vzip had_plus lo hi ++ vzip had_minus lo hi)
                         (2 ^ m + j)
                  = amp_at (vzip had_minus lo hi) j).
      { replace (2 ^ m)%nat with (length (vzip had_plus lo hi))
          by (rewrite vzip_length; lia).
        apply amp_at_app_high. }
      rewrite E, F, amp_at_vzip by lia. reflexivity.
Qed.

End Halves.

(* ================================================================= *)
(** ** Conservation of total probability *)

Lemma total_probability_app (u w : statevector) :
  total_probability (u ++ w) = total_probability u + total_probability w.
Proof.
  unfold total_probability. induction u as [|a u IH]; simpl; [lra|].
  rewrite IH. lra.
Qed.

Lemma total_probability_had (lo hi : statevector) :
  length lo = length hi ->
  total_probability (vzip had_plus lo hi)
  + total_probability (vzip had_minus lo hi)
  = total_probability lo + total_probability hi.
Proof.
  revert hi. induction lo as [|a lo IH]; intros [|b hi] L;
    simpl in *; try discriminate; [reflexivity|].
  assert (E := IH hi ltac:(lia)). assert (P := hadamard_pair_norm a b).
  unfold total_probability, vzip, had_plus, had_minus in *. simpl. lra.
Qed.

Lemma pauliX_norm (n q : nat) (v : statevector) :
  (q < n)%nat -> length v = (2 ^ n)%nat ->
  total_probability (pauliX q v) = total_probability v.
Proof.
  revert v. induction n as [|m IH]; intros v Hq L; [lia|].
  destruct (split_half m v L) as (lo & hi & -> & Llo & Lhi).
  destruct (Nat.eq_dec q m) as [->|Hne].
  - rewrite (pauliX_top m lo hi Llo Lhi), !total_probability_app. lra.
  - rewrite (pauliX_low m lo hi Llo Lhi q) by lia.
    rewrite !total_probability_app, !IH by (auto; lia). reflexivity.
Qed.

Lemma hadamard_norm (n q : nat) (v : statevector) :
  (q < n)%nat -> length v = (2 ^ n)%nat ->
  total_probability (hadamard q v) = total_probability v.
Proof.
  revert v. induction n as [|m IH]; intros v Hq L; [lia|].
  destruct (split_half m v L) as (lo & hi & -> & Llo & Lhi).
  destruct (Nat.eq_dec q m) as [->|Hne].
  - rewrite (hadamard_top m lo hi Llo Lhi), !total_probability_app.
    apply total_probability_had. lia.
  - rewrite (hadamard_low m lo hi Llo Lhi q) by lia.
    rewrite !total_probability_app, !IH by (auto; lia). reflexivity.
Qed.

Lemma total_probability_tabulate_ext (f g : nat -> C) (len : nat) :
  (forall i, (i < len)%nat -> Cnorm2 (f i) = Cnorm2 (g i)) ->
  total_probability (tabulate f len) = total_probability (tabulate g len).
Proof.
  intros H. unfold total_probability, tabulate. rewrite !map_map.
  f_equal. apply map_ext_in. intros i Hi. apply in_seq in Hi. apply H. lia.
Qed.

Lemma negate_at_norm (k : nat) (v : statevector) :
  total_probability (negate_at k v) = total_probability v.
Proof.
  rewrite <- (tabulate_amp_at v) at 2. unfold negate_at.
  apply total_probability_tabulate_ext. intros i _.
  destruct (Nat.eqb i k); [|reflexivity].
  destruct (amp_at v i). cunfold. ring.
Qed.

Lemma hadamard_involutive (n q : nat) (v : statevector) :
  (q < n)%nat -> length v = (2 ^ n)%nat -> hadamard q (hadamard q v) = v.
Proof.
  intros Hq L. apply vector_ext; [now rewrite !hadamard_length|].
  intros i Hi. rewrite !hadamard_length, L in Hi.
  assert (Hp : (Nat.lxor i (2 ^ q) < 2 ^ n)%nat) by (now apply lxor_pow2_lt).
  unfold hadamard at 1. rewrite hadamard_length, amp_at_tabulate by lia.
  cbv zeta. unfold hadamard. rewrite !amp_at_tabulate by lia. cbv zeta.
  rewrite lxor_twice, testbit_lxor_pow2_same.
  destruct (Nat.testbit i q); simpl.
  - apply hadamard_pair_minus.
  - apply hadamard_pair_plus.
Qed.

(** The multi-controlled X alone, between its two Hadamards. *)
Lemma mcx_norm (n : nat) (v : statevector) :
  (1 <= n)%nat -> length v = (2 ^ n)%nat ->
  total_probability (multiControlledNOT (seq 0 (n - 1)) (n - 1) v)
  = total_probability v.
Proof.
  intros Hn L. destruct n as [|m]; [lia|].
  replace (S m - 1)%nat with m by lia.
  assert (E : multiControlledNOT (seq 0 m) m v
              = hadamard m (negate_at (2 ^ S m - 1) (hadamard m v))).
  { rewrite <- (mcz_negates_last m (hadamard m v))
      by (now rewrite hadamard_length).
    rewrite (hadamard_involutive (S m) m v) by (auto; lia).
    rewrite (hadamard_involutive (S m) m)
      by (rewrite ?multiControlledNOT_length; auto; lia).
    reflexivity. }
  rewrite E.
  rewrite (hadamard_norm (S m))
    by (rewrite ?negate_at_length, ?hadamard_length; auto; lia).
  rewrite negate_at_norm. apply (hadamard_norm (S m)); auto; lia.
Qed.

Lemma gate_ok_norm (n : nat) (g : instruction) (v : statevector) :
  gate_ok n g -> length v = (2 ^ n)%nat ->
  total_probability (apply_instruction g v) = total_probability v.
Proof.
  destruct g as [q|q|cs t|]; simpl; intros H L.
  - now apply (pauliX_norm n).
  - now apply (hadamard_norm n).
  - destruct H as (Hn & -> & ->). now apply mcx_norm.
  - reflexivity.
Qed.

Lemma simulate_norm (n : nat) (gs : list instruction) (v : statevector) :
  Forall (gate_ok n) gs -> length v = (2 ^ n)%nat ->
  total_probability (simulate gs v) = total_probability v.
Proof.
  intros H. revert v. induction H as [|g gs Hg _ IH]; intros v L.
  - reflexivity.
  - simpl. unfold simulate in IH.
    rewrite IH by (now rewrite apply_instruction_length).
    now apply (gate_ok_norm n).
Qed.

Lemma init_length (n : nat) : length (init n) = (2 ^ n)%nat.
Proof.
  unfold init. simpl. rewrite repeat_length. assert (H := pow2_pos n). lia.
Qed.

Lemma total_probability_zeros (k : nat) :
  total_probability (repeat C0 k) = 0.
Proof.
  unfold total_probability. induction k as [|k IH]; simpl; [reflexivity|].
  rewrite IH. cunfold. ring.
Qed.

Lemma init_norm (n : nat) : total_probability (init n) = 1.
Proof.
  unfold init. change (C1 :: repeat C0 (2 ^ n - 1))
    with ([C1] ++ repeat C0 (2 ^ n - 1)).
  rewrite total_probability_app, total_probability_zeros.
  unfold total_probability. cunfold. ring.
Qed.

(** Every gate of a run is one the norm lemmas cover. *)
Lemma x_layer_ok (n : nat) (qs : list nat) :
  Forall (fun q => (q < n)%nat) qs -> Forall (gate_ok n) (x_layer qs).
Proof.
  intros H. unfold x_layer. apply Forall_map.
  eapply Forall_impl; [|exact H]. intros q Hq. exact Hq.
Qed.

Lemma h_layer_ok (n : nat) : Forall (gate_ok n) (h_layer n).
Proof.
  unfold h_layer. apply Forall_map.
  eapply Forall_impl; [|apply seq_below]. intros q Hq. exact Hq.
Qed.

Lemma mcz_gates_ok (n : nat) : (1 <= n)%nat -> Forall (gate_ok n) (mcz_gates n).
Proof.
  intros Hn. unfold mcz_gates.
  repeat constructor; simpl; auto; lia.
Qed.

Lemma oracle_gates_ok (n : nat) (bits : list nat) :
  (1 <= n)%nat -> (length bits <= n)%nat ->
  Forall (gate_ok n) (oracle_gates n bits).
Proof.
  intros Hn Hl. unfold oracle_gates.
  assert (Z : Forall (fun q => (q < n)%nat) (zero_positions 0 bits)).
  { eapply Forall_impl; [|apply zero_positions_below]. simpl. intros; lia. }
  repeat (apply Forall_app; split); auto using x_layer_ok, mcz_gates_ok.
Qed.

Lemma diffusion_gates_ok (n : nat) :
  (1 <= n)%nat -> Forall (gate_ok n) (diffusion_gates n).
Proof.
  intros Hn. unfold diffusion_gates.
  repeat (apply Forall_app; split);
    auto using x_layer_ok, mcz_gates_ok, h_layer_ok, seq_below.
Qed.

Lemma iterate_gates_ok (n k : nat) (gs : list instruction) :
  Forall (gate_ok n) gs -> Forall (gate_ok n) (iterate_gates k gs).
Proof.
  intros H. induction k as [|k IH]; simpl; [constructor|].
  apply Forall_app. now split.
Qed.

Lemma grover_gates_ok (n k : nat) (bits : list nat) :
  (1 <= n)%nat -> (length bits <= n)%nat ->
  Forall (gate_ok n) (grover_gates n bits k).
Proof.
  intros Hn Hl. unfold grover_gates.
  repeat (apply Forall_app; split); auto using h_layer_ok.
  - apply iterate_gates_ok. apply Forall_app.
    split; auto using oracle_gates_ok, diffusion_gates_ok.
  - repeat constructor.
Qed.

Lemma Forall_firstn {A : Type} (P : A -> Prop) (k : nat) (l : list A) :
  Forall P l -> Forall P (firstn k l).
Proof.
  intros H. revert k. induction H as [|a l Ha _ IH]; intros [|k]; simpl;
    constructor; auto.
Qed.

(* ================================================================= *)
(** ** The layer of Hadamard gates *)

Lemma simulate_h_low (m : nat) (qs : list nat) (lo hi : statevector) :
  length lo = (2 ^ m)%nat -> length hi = (2 ^ m)%nat ->
  Forall (fun q => (q < m)%nat) qs ->
  simulate (map HGate qs) (lo ++ hi)
  = simulate (map HGate qs) lo ++ simulate (map HGate qs) hi.
Proof.
  intros Llo Lhi H. revert lo hi Llo Lhi.
  induction H as [|q qs Hq _ IH]; intros lo hi Llo Lhi; [reflexivity|].
  simpl. rewrite (hadamard_low m lo hi Llo Lhi q Hq).
  apply IH; now rewrite hadamard_length.
Qed.

Lemma h_layer_succ (m : nat) (lo hi : statevector) :
  length lo = (2 ^ m)%nat -> length hi = (2 ^ m)%nat ->
  simulate (h_layer (S m)) (lo ++ hi)
  = vzip had_plus (simulate (h_layer m) lo) (simulate (h_layer m) hi)
    ++ vzip had_minus (simulate (h_layer m) lo) (simulate (h_layer m) hi).
Proof.
  intros Llo Lhi. unfold h_layer. rewrite seq_S, map_app, simulate_app.
  rewrite (simulate_h_low m) by auto using seq_below.
  simpl. apply hadamard_top; now rewrite simulate_length.
Qed.

Lemma had_plus_lin (a b : C) : had_plus a b = lin inv_sqrt2 inv_sqrt2 a b.
Proof. unfold had_plus. ceq; ring. Qed.

Lemma had_minus_lin (a b : C) : had_minus a b = lin inv_sqrt2 (- inv_sqrt2) a b.
Proof. unfold had_minus. ceq; ring. Qed.

Lemma lin_interchange (x y z w : R) (a b c d : C) :
  lin x y (lin z w a b) (lin z w c d) = lin z w (lin x y a c) (lin x y b d).
Proof. ceq; ring. Qed.

(** The Hadamard layer is linear. *)
Lemma h_layer_lin (m : nat) (x y : R) (a b : statevector) :
  length a = (2 ^ m)%nat -> length b = (2 ^ m)%nat ->
  simulate (h_layer m) (vzip (lin x y) a b)
  = vzip (lin x y) (simulate (h_layer m) a) (simulate (h_layer m) b).
Proof.
  revert a b. induction m as [|m IH]; intros a b La Lb; [reflexivity|].
  destruct (split_half m a La) as (a1 & a2 & -> & L1 & L2).
  destruct (split_half m b Lb) as (b1 & b2 & -> & M1 & M2).
  rewrite vzip_app by lia.
  rewrite !h_layer_succ by (rewrite ?vzip_length; lia).
  rewrite !IH by assumption.
  rewrite vzip_app
    by (rewrite !vzip_length; rewrite ?simulate_length; lia).
  rewrite !(vzip_ext had_plus _ _ _ had_plus_lin).
  rewrite !(vzip_ext had_minus _ _ _ had_minus_lin).
  f_equal; apply vzip_interchange;
    rewrite ?simulate_length; try lia; intros; apply lin_interchange.
Qed.

(** Applied twice, the layer is the identity. *)
Lemma h_layer_involutive (m : nat) (v : statevector) :
  length v = (2 ^ m)%nat ->
  simulate (h_layer m) (simulate (h_layer m) v) = v.
Proof.
  revert v. induction m as [|m IH]; intros v L; [reflexivity|].
  destruct (split_half m v L) as (lo & hi & -> & Llo & Lhi).
  rewrite (h_layer_succ m lo hi) by assumption.
  set (A := simulate (h_layer m) lo). set (B := simulate (h_layer m) hi).
  assert (LA : length A = (2 ^ m)%nat) by (unfold A; now rewrite simulate_length).
  assert (LB : length B = (2 ^ m)%nat) by (unfold B; now rewrite simulate_length).
  rewrite h_layer_succ by (rewrite vzip_length; lia).
  rewrite (vzip_ext had_plus _ A B had_plus_lin).
  rewrite (vzip_ext had_minus _ A B had_minus_lin).
  rewrite !h_layer_lin by assumption.
  unfold A, B. rewrite !IH by assumption.
  rewrite <- (vzip_ext had_plus _ lo hi had_plus_lin).
  rewrite <- (vzip_ext had_minus _ lo hi had_minus_lin).
  now rewrite vzip_had_plus_inv, vzip_had_minus_inv by lia.
Qed.

Lemma basis0_succ (c : C) (m : nat) :
  basis0 c (S m) = basis0 c m ++ repeat C0 (2 ^ m).
Proof.
  unfold basis0. assert (H := pow2_pos m).
  replace (2 ^ S m - 1)%nat with ((2 ^ m - 1) + 2 ^ m)%nat by (simpl; lia).
  now rewrite repeat_app.
Qed.

Lemma basis0_length (c : C) (m : nat) : length (basis0 c m) = (2 ^ m)%nat.
Proof.
  unfold basis0. simpl. rewrite repeat_length. assert (H := pow2_pos m). lia.
Qed.

Lemma basis0_zero (m : nat) : basis0 C0 m = repeat C0 (2 ^ m).
Proof.
  unfold basis0. assert (H := pow2_pos m).
  replace (2 ^ m)%nat with (S (2 ^ m - 1)) at 2 by lia. reflexivity.
Qed.

Lemma h_layer_basis0 (m : nat) (c : C) :
  simulate (h_layer m) (basis0 c m) = repeat (Cscale (inv_sqrt2 ^ m) c) (2 ^ m).
Proof.
  revert c. induction m as [|m IH]; intros c.
  - simpl. unfold basis0. simpl. now rewrite Cscale_1.
  - rewrite basis0_succ.
    rewrite h_layer_succ by (now rewrite ?basis0_length, ?repeat_length).
    rewrite <- basis0_zero, !IH, !vzip_repeat.
    replace (2 ^ S m)%nat with (2 ^ m + 2 ^ m)%nat by (simpl; lia).
    rewrite repeat_app.
    f_equal; f_equal; unfold had_plus, had_minus; ceq; ring.
Qed.

Lemma Cadd_0_l (a : C) : Cadd C0 a = a.
Proof. ceq; ring. Qed.

Lemma Cadd_assoc (a b c : C) : Cadd a (Cadd b c) = Cadd (Cadd a b) c.
Proof. ceq; ring. Qed.

Lemma vsum_app (u w : statevector) :
  vsum (u ++ w) = Cadd (vsum u) (vsum w).
Proof.
  unfold vsum. induction u as [|a u IH]; simpl.
  - now rewrite Cadd_0_l.
  - rewrite IH. apply Cadd_assoc.
Qed.

Lemma h_layer_at_0 (m : nat) (v : statevector) :
  length v = (2 ^ m)%nat ->
  amp_at (simulate (h_layer m) v) 0 = Cscale (inv_sqrt2 ^ m) (vsum v).
Proof.
  revert v. induction m as [|m IH]; intros v L.
  - destruct v as [|a [|b v]]; simpl in L; try discriminate.
    simpl. unfold amp_at, vsum. simpl. ceq; ring.
  - destruct (split_half m v L) as (lo & hi & -> & Llo & Lhi).
    rewrite h_layer_succ by assumption. assert (H := pow2_pos m).
    rewrite amp_at_app_low
      by (rewrite vzip_length; rewrite ?simulate_length; lia).
    rewrite amp_at_vzip by (rewrite ?simulate_length; lia).
    rewrite !IH, vsum_app by assumption.
    unfold had_plus. ceq; ring.
Qed.

Lemma inv_sqrt2_pow_sqr (n : nat) :
  inv_sqrt2 ^ n * inv_sqrt2 ^ n = / 2 ^ n.
Proof.
  rewrite <- Rpow_mult_distr, inv_sqrt2_sqr. apply pow_inv.
Qed.

Lemma INR_pow2 (n : nat) : INR (2 ^ n) = 2 ^ n.
Proof. rewrite pow_INR. reflexivity. Qed.

Lemma pow2_R_pos (n : nat) : 0 < 2 ^ n.
Proof. apply pow_lt. lra. Qed.

(* ================================================================= *)
(** ** The diffusion step *)

Lemma zero_positions_zeros (k n : nat) :
  zero_positions k (repeat 0%nat n) = seq k n.
Proof.
  revert k. induction n as [|n IH]; intros k; simpl; [reflexivity|].
  now rewrite IH.
Qed.

Lemma index_le_zeros (n : nat) : index_le (repeat 0%nat n) = 0%nat.
Proof. induction n as [|n IH]; simpl; [reflexivity|]. rewrite IH. lia. Qed.

(** Between its two Hadamard layers the diffusion step is the oracle of the
    all-zero string. *)
Lemma diffusion_gates_oracle (n : nat) :
  diffusion_gates n
  = h_layer n ++ oracle_gates n (repeat 0%nat n) ++ h_layer n.
Proof.
  unfold diffusion_gates, oracle_gates.
  rewrite zero_positions_zeros. now rewrite <- !app_assoc.
Qed.

Lemma amp_at_basis0 (c : C) (n i : nat) :
  amp_at (basis0 c n) i = if Nat.eqb i 0 then c else C0.
Proof.
  unfold amp_at, basis0. destruct i as [|i]; simpl; [reflexivity|].
  apply nth_repeat.
Qed.

Lemma negate_at_0_lin (n : nat) (u : statevector) :
  length u = (2 ^ n)%nat ->
  negate_at 0 u = vzip (lin 1 (-1)) u (basis0 (Cscale 2 (amp_at u 0)) n).
Proof.
  intros L. apply vector_ext.
  - rewrite negate_at_length, vzip_length; rewrite ?basis0_length; lia.
  - intros i Hi. rewrite negate_at_length in Hi.
    rewrite amp_at_negate_at by assumption.
    rewrite amp_at_vzip by (rewrite ?basis0_length; lia).
    rewrite amp_at_basis0.
    destruct (Nat.eqb_spec i 0) as [->|_];
      destruct (amp_at u _); cunfold; f_equal; ring.
Qed.

Lemma simulate_diffusion_negate (n : nat) (v : statevector) :
  (1 <= n)%nat -> length v = (2 ^ n)%nat ->
  simulate (diffusion_gates n) v
  = simulate (h_layer n) (negate_at 0 (simulate (h_layer n) v)).
Proof.
  intros Hn L. rewrite diffusion_gates_oracle, !simulate_app.
  rewrite simulate_oracle_gates
    by (rewrite ?repeat_length, ?simulate_length; auto).
  now rewrite index_le_zeros.
Qed.

(** The gates of the diffusion step take every amplitude [a] to
    [a - 2*mean]. *)
Lemma simulate_diffusion_gates (n : nat) (v : statevector) :
  (1 <= n)%nat -> length v = (2 ^ n)%nat ->
  simulate (diffusion_gates n) v = minus_reflect_about_mean v.
Proof.
  intros Hn L. rewrite simulate_diffusion_negate by assumption.
  rewrite (negate_at_0_lin n) by (now rewrite simulate_length).
  rewrite h_layer_lin by (now rewrite ?basis0_length, ?simulate_length).
  rewrite h_layer_involutive, h_layer_basis0, h_layer_at_0 by assumption.
  rewrite <- L, vzip_const. unfold minus_reflect_about_mean, mean.
  apply map_ext. intros a. rewrite L, INR_pow2.
  assert (E := inv_sqrt2_pow_sqr n). assert (P := pow2_R_pos n).
  set (s := inv_sqrt2 ^ n) in *. destruct a as [x y], (vsum v) as [p q].
  cunfold. f_equal.
  - transitivity (x - 2 * (s * s) * p); [ring | rewrite E; ring].
  - transitivity (y - 2 * (s * s) * q); [ring | rewrite E; ring].
Qed.

Lemma simulate_diffusion_twice (n : nat) (v : statevector) :
  (1 <= n)%nat -> length v = (2 ^ n)%nat ->
  simulate (diffusion_gates n) (simulate (diffusion_gates n) v) = v.
Proof.
  intros Hn L.
  rewrite (simulate_diffusion_negate n (simulate _ v))
    by (now rewrite ?simulate_length).
  rewrite simulate_diffusion_negate by assumption.
  rewrite h_layer_involutive
    by (now rewrite negate_at_length, simulate_length).
  rewrite negate_at_twice. now apply h_layer_involutive.
Qed.

(* ================================================================= *)
(** ** The circuit of a run *)

Lemma run_circuit (n k : nat) (t : string) :
  (1 <= n)%nat -> String.length t = n -> is_binary t = true ->
  run_grovers_algorithm n t k
  = Done (mkCircuit n (grover_gates n (binary_bits t) k)).
Proof.
  intros Hn Lt Bt. unfold run_grovers_algorithm.
  assert (A : appends
                (qc_h_range n ;;
                 repeat_op k (apply_oracle n t ;; apply_diffusion n) ;;
                 qc_measure_all)
                n (grover_gates n (binary_bits t) k)).
  { unfold grover_gates.
    apply appends_seq; [now apply appends_h_range|].
    apply appends_seq; [|apply appends_measure_all].
    apply appends_repeat_op.
    apply appends_seq; [|now apply appends_apply_diffusion].
    apply appends_apply_oracle; auto using target_bits_binary.
    rewrite binary_bits_length. lia. }
  apply (A []).
Qed.

Lemma run_circuit_0 (n : nat) (t : string) :
  (1 <= n)%nat ->
  run_grovers_algorithm n t 0
  = Done (mkCircuit n (h_layer n ++ [MeasureAll])).
Proof.
  intros Hn. unfold run_grovers_algorithm.
  assert (A : appends
                (qc_h_range n ;; repeat_op 0 (apply_oracle n t ;;
                                               apply_diffusion n) ;;
                 qc_measure_all)
                n (h_layer n ++ [] ++ [MeasureAll])).
  { apply appends_seq; [now apply appends_h_range|].
    apply appends_seq; [apply appends_skip | apply appends_measure_all]. }
  apply (A []).
Qed.

(* ================================================================= *)
(** ** States with one distinguished amplitude *)

Lemma two_level_length (len k : nat) (a b : C) :
  length (two_level len k a b) = len.
Proof. apply tabulate_length. Qed.

Lemma amp_at_two_level (len k i : nat) (a b : C) :
  (i < len)%nat ->
  amp_at (two_level len k a b) i = if Nat.eqb i k then a else b.
Proof. intros. unfold two_level. now rewrite amp_at_tabulate. Qed.

Lemma repeat_two_level (len k : nat) (c : C) :
  repeat c len = two_level len k c c.
Proof.
  apply vector_ext.
  - now rewrite repeat_length, two_level_length.
  - intros i Hi. rewrite repeat_length in Hi.
    rewrite amp_at_two_level by assumption. unfold amp_at.
    rewrite (nth_indep _ C0 c) by (now rewrite repeat_length).
    rewrite nth_repeat. now destruct (Nat.eqb i k).
Qed.

Lemma negate_at_two_level (len k : nat) (a b : C) :
  negate_at k (two_level len k a b) = two_level len k (Copp a) b.
Proof.
  unfold negate_at. rewrite two_level_length. unfold two_level at 3.
  apply tabulate_ext. intros i Hi.
  rewrite amp_at_two_level by assumption. now destruct (Nat.eqb i k).
Qed.

Lemma tabulate_succ (f : nat -> C) (len : nat) :
  tabulate f (S len) = tabulate f len ++ [f len].
Proof. unfold tabulate. now rewrite seq_S, map_app. Qed.

Lemma vsum_two_level_gen (len k : nat) (a b : C) :
  vsum (two_level len k a b)
  = if Nat.ltb k len then Cadd a (Cscale (INR len - 1) b)
    else Cscale (INR len) b.
Proof.
  unfold two_level. induction len as [|len IH].
  - simpl. unfold vsum. simpl. ceq; ring.
  - rewrite tabulate_succ, vsum_app, IH, S_INR.
    unfold vsum at 1. simpl fold_right.
    destruct (Nat.ltb_spec k len), (Nat.ltb_spec k (S len)),
             (Nat.eqb_spec len k); try lia; ceq; ring.
Qed.

Lemma vsum_two_level (len k : nat) (a b : C) :
  (k < len)%nat ->
  vsum (two_level len k a b) = Cadd a (Cscale (INR len - 1) b).
Proof.
  intros H. rewrite vsum_two_level_gen.
  now replace (Nat.ltb k len) with true by (symmetry; now apply Nat.ltb_lt).
Qed.

Lemma map_two_level (g : C -> C) (len k : nat) (a b : C) :
  map g (two_level len k a b) = two_level len k (g a) (g b).
Proof.
  unfold two_level, tabulate. rewrite map_map. apply map_ext.
  intros i. now destruct (Nat.eqb i k).
Qed.

(** One round (oracle, then diffusion) on such a state. *)
Lemma grover_round_two_level (n : nat) (bits : list nat) (a b : C) :
  (1 <= n)%nat -> length bits = n ->
  simulate (oracle_gates n bits ++ diffusion_gates n)
           (two_level (2 ^ n) (index_le bits) a b)
  = two_level (2 ^ n) (index_le bits)
              (fst (grover_step (2 ^ n) (a, b)))
              (snd (grover_step (2 ^ n) (a, b))).
Proof.
  intros Hn Lb. rewrite simulate_app.
  rewrite simulate_oracle_gates by (auto using two_level_length).
  rewrite negate_at_two_level.
  rewrite simulate_diffusion_gates by (auto using two_level_length).
  unfold minus_reflect_about_mean, mean.
  rewrite map_two_level, two_level_length.
  rewrite vsum_two_level by (rewrite <- Lb; apply index_le_lt).
  reflexivity.
Qed.

Lemma grover_rounds_two_level (n k : nat) (bits : list nat) (ab : C * C) :
  (1 <= n)%nat -> length bits = n ->
  simulate (iterate_gates k (oracle_gates n bits ++ diffusion_gates n))
           (two_level (2 ^ n) (index_le bits) (fst ab) (snd ab))
  = two_level (2 ^ n) (index_le bits)
              (fst (grover_amps (2 ^ n) k ab))
              (snd (grover_amps (2 ^ n) k ab)).
Proof.
  intros Hn Lb. revert ab. induction k as [|k IH]; intros ab; [reflexivity|].
  cbn [iterate_gates grover_amps]. rewrite simulate_app.
  destruct ab as [a b]. cbn [fst snd].
  rewrite grover_round_two_level by assumption. apply IH.
Qed.

Lemma simulate_h_layer_init (n : nat) :
  simulate (h_layer n) (init n) = repeat (Cscale (inv_sqrt2 ^ n) C1) (2 ^ n).
Proof. apply (h_layer_basis0 n C1). Qed.

(** The state before measurement of a run, in closed form. *)
Lemma final_state_run (n k : nat) (t : string) :
  (1 <= n)%nat -> String.length t = n -> is_binary t = true ->
  final_state (run_grovers_algorithm n t k)
  = Some (two_level (2 ^ n) (target_index t)
            (fst (grover_amps (2 ^ n) k (Cscale (inv_sqrt2 ^ n) C1,
                                          Cscale (inv_sqrt2 ^ n) C1)))
            (snd (grover_amps (2 ^ n) k (Cscale (inv_sqrt2 ^ n) C1,
                                          Cscale (inv_sqrt2 ^ n) C1)))).
Proof.
  intros Hn Lt Bt. rewrite run_circuit by assumption.
  unfold final_state, grover_gates. cbn [data num_qubits].
  rewrite !simulate_app, simulate_h_layer_init.
  rewrite (repeat_two_level _ (target_index t)).
  rewrite <- index_le_binary_bits.
  set (u := Cscale (inv_sqrt2 ^ n) C1).
  change (two_level (2 ^ n) (index_le (binary_bits t)) u u)
    with (two_level (2 ^ n) (index_le (binary_bits t))
                    (fst (u, u)) (snd (u, u))).
  rewrite grover_rounds_two_level
    by (rewrite ?binary_bits_length; assumption).
  reflexivity.
Qed.

Lemma Cnorm2_uniform (n : nat) :
  Cnorm2 (Cscale (inv_sqrt2 ^ n) C1) = / 2 ^ n.
Proof.
  assert (E := inv_sqrt2_pow_sqr n). cunfold.
  transitivity (inv_sqrt2 ^ n * inv_sqrt2 ^ n); [ring | exact E].
Qed.

(* ================================================================= *)
(** ** Runs on target strings of any length *)

Lemma run_circuit_zeros (n k : nat) (t : string) :
  (1 <= n)%nat -> is_binary t = true ->
  Forall (fun q => (q < n)%nat) (zero_positions 0 (binary_bits t)) ->
  run_grovers_algorithm n t k
  = Done (mkCircuit n (grover_gates n (binary_bits t) k)).
Proof.
  intros Hn Bt Z. unfold run_grovers_algorithm.
  assert (A : appends
                (qc_h_range n ;;
                 repeat_op k (apply_oracle n t ;; apply_diffusion n) ;;
                 qc_measure_all)
                n (grover_gates n (binary_bits t) k)).
  { unfold grover_gates.
    apply appends_seq; [now apply appends_h_range|].
    apply appends_seq; [|apply appends_measure_all].
    apply appends_repeat_op.
    apply appends_seq; [|now apply appends_apply_diffusion].
    apply appends_apply_oracle_zeros; auto using target_bits_binary. }
  apply (A []).
Qed.

Lemma zero_positions_app (k : nat) (x y : list nat) :
  zero_positions k (x ++ y)
  = zero_positions k x ++ zero_positions (k + length x) y.
Proof.
  revert k. induction x as [|b x IH]; intros k; simpl.
  - now rewrite Nat.add_0_r.
  - rewrite IH. replace (S k + length x)%nat with (k + S (length x))%nat by lia.
    now destruct (Nat.eqb b 0).
Qed.

Lemma bits_of_ones (cs : list ascii) :
  all_ones cs = true -> map bit_of_char cs = repeat 1%nat (length cs).
Proof.
  unfold all_ones. induction cs as [|c r IH]; simpl; intros H; [reflexivity|].
  apply andb_true_iff in H. destruct H as [Hc Hr].
  unfold bit_of_char at 1. rewrite Hc. f_equal. now apply IH.
Qed.

Lemma zero_positions_ones (k j : nat) : zero_positions k (repeat 1%nat j) = [].
Proof. revert k. induction j as [|j IH]; intros k; simpl; auto. Qed.

Lemma all_ones_rev (cs : list ascii) : all_ones (rev cs) = all_ones cs.
Proof. apply forallb_rev. Qed.

Lemma all_ones_repeat (j : nat) : all_ones (repeat "1"%char j) = true.
Proof. induction j as [|j IH]; simpl; auto. Qed.

Lemma zero_positions_ones_suffix (suf pre : list ascii) :
  all_ones pre = true ->
  zero_positions 0 (map bit_of_char (rev (pre ++ suf)))
  = zero_positions 0 (map bit_of_char (rev suf)).
Proof.
  intros H. rewrite rev_app_distr, map_app, zero_positions_app.
  rewrite (bits_of_ones (rev pre)) by (now rewrite all_ones_rev).
  now rewrite zero_positions_ones, app_nil_r.
Qed.

Lemma list_ascii_fit_target (n : nat) (t : string) :
  list_ascii_of_string (fit_target n t)
  = repeat "1"%char (n - String.length t)
    ++ skipn (String.length t - n) (list_ascii_of_string t).
Proof. unfold fit_target. apply list_ascii_of_string_of_list_ascii. Qed.

Lemma fit_target_length (n : nat) (t : string) :
  String.length (fit_target n t) = n.
Proof.
  rewrite <- length_list_ascii, list_ascii_fit_target.
  rewrite length_app, repeat_length, length_skipn, length_list_ascii. lia.
Qed.

Lemma is_binary_fit_target (n : nat) (t : string) :
  is_binary t = true -> is_binary (fit_target n t) = true.
Proof.
  unfold is_binary. rewrite list_ascii_fit_target, forallb_app. intros H.
  apply andb_true_iff. split.
  - apply forallb_forall. intros c Hc. apply repeat_spec in Hc. now subst c.
  - rewrite forallb_forall in *. intros c Hc. apply H.
    rewrite <- (firstn_skipn (String.length t - n)). apply in_or_app. now right.
Qed.

(** With only ['1'] among the surplus characters, the X gates of the oracle
    are those of the fitted target. *)
Lemma zero_positions_fit_target (n : nat) (t : string) :
  all_ones (surplus n t) = true ->
  zero_positions 0 (binary_bits (fit_target n t))
  = zero_positions 0 (binary_bits t).
Proof.
  intros H. unfold binary_bits, surplus in *. rewrite list_ascii_fit_target.
  rewrite zero_positions_ones_suffix by apply all_ones_repeat.
  rewrite <- (firstn_skipn (String.length t - n) (list_ascii_of_string t))
    at 2.
  now rewrite zero_positions_ones_suffix.
Qed.

Lemma oracle_gates_zero_positions (n : nat) (b c : list nat) :
  zero_positions 0 b = zero_positions 0 c ->
  oracle_gates n b = oracle_gates n c.
Proof. intros H. unfold oracle_gates. now rewrite H. Qed.

Lemma run_fit_target (n k : nat) (t : string) :
  (1 <= n)%nat -> is_binary t = true -> all_ones (surplus n t) = true ->
  run_grovers_algorithm n t k = run_grovers_algorithm n (fit_target n t) k
  /\ exists qc, run_grovers_algorithm n t k = Done qc.
Proof.
  intros Hn Bt H.
  assert (Z := zero_positions_fit_target n t H).
  assert (F : Forall (fun q => (q < n)%nat)
                     (zero_positions 0 (binary_bits (fit_target n t)))).
  { eapply Forall_impl; [|apply zero_positions_below].
    simpl. rewrite binary_bits_length, fit_target_length. intros; lia. }
  rewrite (run_circuit_zeros n k (fit_target n t))
    by auto using is_binary_fit_target.
  rewrite (run_circuit_zeros n k t) by (auto; now rewrite <- Z).
  unfold grover_gates.
  rewrite (oracle_gates_zero_positions n _ _ Z). split; eauto.
Qed.

Lemma raises_seq_l (a b : circ_op) (n : nat) (g : list instruction) :
  raises a n g -> raises (a ;; b) n g.
Proof. intros H d. unfold seq_op. now rewrite H. Qed.

Lemma raises_seq_r (a b : circ_op) (n : nat) (g h : list instruction) :
  appends a n g -> raises b n h -> raises (a ;; b) n (g ++ h).
Proof. intros Ha Hb d. unfold seq_op. now rewrite Ha, Hb, app_assoc. Qed.

Lemma raises_qc_x (q n : nat) : (n <= q)%nat -> raises (qc_x q) n [].
Proof.
  intros H d. unfold qc_x, append. simpl.
  replace (Nat.ltb q n) with false by (symmetry; now apply Nat.ltb_ge).
  simpl. now rewrite app_nil_r.
Qed.

Lemma raises_x_where_zero_from (n k : nat) (bits : list nat) :
  Exists (fun q => (n <= q)%nat) (zero_positions k bits) ->
  exists gs,
    raises (for_each (combine (seq k (length bits)) bits)
              (fun p => if Nat.eqb (snd p) 0 then qc_x (fst p) else skip))
           n gs.
Proof.
  revert k. induction bits as [|b r IH]; intros k H; simpl in H.
  - inversion H.
  - simpl. destruct (Nat.eqb b 0).
    + destruct (Nat.lt_ge_cases k n) as [L|G].
      * inversion H as [? ? Hk|? ? Hr]; subst; [lia|].
        destruct (IH (S k) Hr) as [gs Hgs].
        exists ([XGate k] ++ gs).
        apply raises_seq_r; auto using appends_qc_x.
      * exists []. apply raises_seq_l. now apply raises_qc_x.
    + destruct (IH (S k) H) as [gs Hgs]. exists ([] ++ gs).
      apply raises_seq_r; auto using appends_skip.
Qed.

Lemma raises_apply_oracle (n : nat) (t : string) :
  is_binary t = true ->
  Exists (fun q => (n <= q)%nat) (zero_positions 0 (binary_bits t)) ->
  exists gs, raises (apply_oracle n t) n gs.
Proof.
  intros Bt H.
  destruct (raises_x_where_zero_from n 0 (binary_bits t) H) as [gs Hgs].
  exists gs. intros d. unfold apply_oracle.
  rewrite (target_bits_binary t Bt).
  apply raises_seq_l. exact Hgs.
Qed.

Lemma run_raises (n k : nat) (t : string) :
  (1 <= n)%nat -> is_binary t = true ->
  Exists (fun q => (n <= q)%nat) (zero_positions 0 (binary_bits t)) ->
  exists gs,
    run_grovers_algorithm n t (S k)
    = Raised CircuitError (mkCircuit n (h_layer n ++ gs)).
Proof.
  intros Hn Bt H. destruct (raises_apply_oracle n t Bt H) as [gs Hgs].
  exists gs. unfold run_grovers_algorithm.
  assert (R : raises
                (qc_h_range n ;;
                 repeat_op (S k) (apply_oracle n t ;; apply_diffusion n) ;;
                 qc_measure_all)
                n (h_layer n ++ gs)).
  { apply (raises_seq_r _ _ n _ _ (appends_h_range n Hn)).
    apply raises_seq_l. simpl. now repeat apply raises_seq_l. }
  apply (R []).
Qed.

Lemma forallb_false_witness {A : Type} (f : A -> bool) (l : list A) :
  forallb f l = false -> exists x, In x l /\ f x = false.
Proof.
  induction l as [|a l IH]; simpl; [discriminate|].
  destruct (f a) eqn:E; simpl; intros H.
  - destruct (IH H) as (x & Hx & Fx). exists x. auto.
  - exists a. auto.
Qed.

Lemma zero_positions_exists (k : nat) (bits : list nat) :
  In 0%nat bits -> Exists (fun q => (k <= q)%nat) (zero_positions k bits).
Proof.
  revert k. induction bits as [|b r IH]; intros k H; [inversion H|].
  simpl. destruct (Nat.eqb_spec b 0) as [->|Hne].
  - now constructor.
  - destruct H as [H|H]; [congruence|].
    eapply Exists_impl; [|apply (IH (S k) H)]. simpl. intros; lia.
Qed.

(** A ['0'] among the surplus characters asks for an X gate on a qubit the
    circuit does not have. *)
Lemma surplus_zero_position (n : nat) (t : string) :
  all_ones (surplus n t) = false ->
  Exists (fun q => (n <= q)%nat) (zero_positions 0 (binary_bits t)).
Proof.
  intros H. unfold binary_bits.
  assert (Ls : (n < String.length t)%nat).
  { destruct (Nat.lt_ge_cases n (String.length t)) as [L|G]; [exact L|].
    unfold surplus in H.
    replace (String.length t - n)%nat with 0%nat in H by lia.
    discriminate. }
  rewrite <- (firstn_skipn (String.length t - n) (list_ascii_of_string t)).
  fold (surplus n t). rewrite rev_app_distr, map_app, zero_positions_app.
  apply Exists_app. right.
  rewrite length_map, length_rev, length_skipn, length_list_ascii.
  replace (0 + (String.length t - (String.length t - n)))%nat with n by lia.
  apply zero_positions_exists.
  destruct (forallb_false_witness _ _ H) as (c & Hc & Fc).
  apply in_map_iff. exists c. split.
  - unfold bit_of_char. now rewrite Fc.
  - now apply in_rev in Hc.
Qed.

(* ================================================================= *)
(** ** Amplitudes of short runs *)

Lemma testbit_index_le (bits : list nat) (q : nat) :
  Nat.testbit (index_le bits) q = negb (Nat.eqb (nth q bits 0%nat) 0).
Proof.
  revert q. induction bits as [|b r IH]; intros q.
  - simpl index_le. rewrite Nat.bits_0. now destruct q.
  - assert (I : index_le (b :: r)
                = (2 * index_le r + Nat.b2n (negb (Nat.eqb b 0)))%nat)
      by (simpl; destruct (Nat.eqb b 0); simpl; lia).
    rewrite I. destruct q as [|q].
    + now rewrite Nat.testbit_0_r.
    + rewrite Nat.testbit_succ_r. apply IH.
Qed.

(** Bit [q] of the target index is the [q]-th character from the end of
    the target string. *)
Lemma testbit_target_index (t : string) (q : nat) :
  Nat.testbit (target_index t) q
  = Ascii.eqb (nth q (rev (list_ascii_of_string t)) "0"%char) "1"%char.
Proof.
  rewrite <- index_le_binary_bits, testbit_index_le. unfold binary_bits.
  change 0%nat with (bit_of_char "0"%char) at 1. rewrite map_nth.
  unfold bit_of_char. now destruct (Ascii.eqb _ "1").
Qed.

Lemma target_index_lt (t : string) :
  (target_index t < 2 ^ String.length t)%nat.
Proof.
  rewrite <- index_le_binary_bits, <- binary_bits_length. apply index_le_lt.
Qed.

Lemma amp_at_map (g : C -> C) (v : statevector) (i : nat) :
  (i < length v)%nat -> amp_at (map g v) i = g (amp_at v i).
Proof.
  intros H. unfold amp_at.
  rewrite (nth_indep _ C0 (g C0)) by (now rewrite length_map).
  apply map_nth.
Qed.

(** The probability of the target after one round from the uniform
    state. *)
Lemma one_round_probability (n : nat) :
  Cnorm2 (fst (grover_step (2 ^ n) (Cscale (inv_sqrt2 ^ n) C1,
                                     Cscale (inv_sqrt2 ^ n) C1)))
  = / 2 ^ n * ((3 - 4 / 2 ^ n) * (3 - 4 / 2 ^ n)).
Proof.
  assert (E := inv_sqrt2_pow_sqr n). assert (P := pow2_R_pos n).
  unfold grover_step. rewrite INR_pow2.
  set (c := inv_sqrt2 ^ n) in *. set (M := 2 ^ n) in *.
  transitivity (c * c * ((3 - 4 / M) * (3 - 4 / M))).
  - cunfold. field. lra.
  - now rewrite E.
Qed.

Lemma uniform_2 : Cscale (inv_sqrt2 ^ 2) C1 = (/ 2, 0).
Proof.
  assert (E := inv_sqrt2_sqr). cunfold. f_equal; [|ring].
  transitivity (inv_sqrt2 * inv_sqrt2); [ring | exact E].
Qed.

Lemma grover_amps_4_1 :
  grover_amps (2 ^ 2) 1 (Cscale (inv_sqrt2 ^ 2) C1, Cscale (inv_sqrt2 ^ 2) C1)
  = ((- 1, 0), (0, 0)).
Proof. rewrite uniform_2. simpl. cunfold. f_equal; f_equal; field. Qed.

Lemma grover_amps_4_2 :
  grover_amps (2 ^ 2) 2 (Cscale (inv_sqrt2 ^ 2) C1, Cscale (inv_sqrt2 ^ 2) C1)
  = ((/ 2, 0), (- / 2, 0)).
Proof. rewrite uniform_2. simpl. cunfold. f_equal; f_equal; field. Qed.

Lemma pow2_R_ge_4 (n : nat) : (2 <= n)%nat -> 4 <= 2 ^ n.
Proof.
  intros H. replace 4 with (2 ^ 2) by (simpl; lra).
  apply Rle_pow; [lra | exact H].
Qed.

(* ================================================================= *)
(** * The properties of the specification *)

(** C1. For every [n >= 1], every binary target string of length [n] and
    every amplitude vector of length [2^n], [apply_oracle] returns normally
    and the gates it appends negate exactly the amplitude at the index the
    target string denotes in binary, last character least significant
    (qubit 0); every other amplitude is left as it was. *)
Theorem C1_apply_oracle_negates_target_only
    (n : nat) (t : string) (v : statevector) :
  (1 <= n)%nat -> String.length t = n -> is_binary t = true ->
  length v = (2 ^ n)%nat ->
  (forall q, Nat.testbit (target_index t) q
             = Ascii.eqb (nth q (rev (list_ascii_of_string t)) "0"%char)
                         "1"%char)
  /\ (target_index t < 2 ^ n)%nat
  /\ exists w,
       run_on (apply_oracle n t) n v = Some w
       /\ length w = (2 ^ n)%nat
       /\ forall i, (i < 2 ^ n)%nat ->
            amp_at w i = if Nat.eqb i (target_index t)
                         then Copp (amp_at v i) else amp_at v i.
Proof.
  intros Hn Lt Bt L. split; [|split].
  - intros q. apply testbit_target_index.
  - rewrite <- Lt. apply target_index_lt.
  - exists (negate_at (target_index t) v). split; [|split].
    + now apply run_on_apply_oracle.
    + now rewrite negate_at_length.
    + intros i Hi. apply amp_at_negate_at. now rewrite L.
Qed.

(** For [n = 3] and target "101" on the uniform state, only the amplitude
    at index 5 changes sign. *)
Lemma C1_apply_oracle_101_witness :
  target_index "101" = 5%nat
  /\ exists w,
       run_on (apply_oracle 3 "101") 3 (repeat (Cscale (inv_sqrt2 ^ 3) C1) 8)
       = Some w
       /\ amp_at w 5 = Copp (Cscale (inv_sqrt2 ^ 3) C1)
       /\ forall i, (i < 8)%nat -> i <> 5%nat ->
            amp_at w i = Cscale (inv_sqrt2 ^ 3) C1.
Proof.
  split; [reflexivity|].
  destruct (C1_apply_oracle_negates_target_only
              3 "101" (repeat (Cscale (inv_sqrt2 ^ 3) C1) 8))
    as (_ & _ & w & Hw & _ & Hamp);
    [lia | reflexivity | reflexivity | reflexivity |].
  exists w. split; [exact Hw|]. split.
  - rewrite (Hamp 5%nat) by (simpl; lia). reflexivity.
  - intros i Hi Hne. rewrite (Hamp i) by (simpl; lia).
    change (target_index "101") with 5%nat.
    destruct (Nat.eqb_spec i 5) as [E|_]; [contradiction|].
    do 8 (destruct i as [|i]; [reflexivity|]). simpl in Hi. lia.
Defined.

(** C2, as stated: the diffusion gates would take every amplitude [a] to
    [2*mean - a].  On two qubits and the basis state |00> they give 1/2 at
    index 0 where that formula gives -1/2. *)
Lemma C2_diffusion_reflection_counterexample :
  run_on (apply_diffusion 2) 2 (init 2)
  = Some [(1 / 2, 0); (- (1 / 2), 0); (- (1 / 2), 0); (- (1 / 2), 0)]
  /\ reflect_about_mean (init 2)
     = [(- (1 / 2), 0); (1 / 2, 0); (1 / 2, 0); (1 / 2, 0)]
  /\ run_on (apply_diffusion 2) 2 (init 2)
     <> Some (reflect_about_mean (init 2)).
Proof.
  assert (R : run_on (apply_diffusion 2) 2 (init 2)
              = Some [(1 / 2, 0); (- (1 / 2), 0); (- (1 / 2), 0);
                      (- (1 / 2), 0)]).
  { rewrite (run_on_appends _ 2 (diffusion_gates 2))
      by (apply appends_apply_diffusion; lia).
    rewrite simulate_diffusion_gates by (auto; lia).
    unfold minus_reflect_about_mean, mean, init, vsum. simpl.
    cunfold. vec_eq; field. }
  assert (Q : reflect_about_mean (init 2)
              = [(- (1 / 2), 0); (1 / 2, 0); (1 / 2, 0); (1 / 2, 0)]).
  { unfold reflect_about_mean, mean, init, vsum. simpl.
    cunfold. vec_eq; field. }
  split; [exact R|]. split; [exact Q|].
  rewrite R, Q. intros E. injection E as E. lra.
Qed.

(** C2, amended.  For every [n >= 1] and every amplitude vector [v] of
    length [2^n], [apply_diffusion] returns normally and its gate sequence
    takes every amplitude to [v[i] - 2*mean(v)]: the reflection about the
    mean with the opposite sign. *)
Theorem C2_apply_diffusion_closed_form (n : nat) (v : statevector) :
  (1 <= n)%nat -> length v = (2 ^ n)%nat ->
  exists w,
    run_on (apply_diffusion n) n v = Some w
    /\ length w = (2 ^ n)%nat
    /\ (forall i, (i < 2 ^ n)%nat ->
          amp_at w i = Csub (amp_at v i) (Cscale 2 (mean v)))
    /\ forall i, (i < 2 ^ n)%nat ->
          amp_at w i = Copp (amp_at (reflect_about_mean v) i).
Proof.
  intros Hn L. exists (minus_reflect_about_mean v).
  assert (A : forall i, (i < 2 ^ n)%nat ->
                amp_at (minus_reflect_about_mean v) i
                = Csub (amp_at v i) (Cscale 2 (mean v))).
  { intros i Hi. unfold minus_reflect_about_mean.
    now rewrite amp_at_map by (now rewrite L). }
  split; [|split; [|split]].
  - rewrite (run_on_appends _ n (diffusion_gates n))
      by (now apply appends_apply_diffusion).
    now rewrite simulate_diffusion_gates.
  - unfold minus_reflect_about_mean. now rewrite length_map.
  - exact A.
  - intros i Hi. rewrite A by assumption. unfold reflect_about_mean.
    rewrite amp_at_map by (now rewrite L).
    destruct (amp_at v i), (mean v). cunfold. f_equal; ring.
Qed.

Lemma C2_apply_diffusion_closed_form_witness :
  exists w,
    run_on (apply_diffusion 2) 2 (init 2) = Some w
    /\ length w = (2 ^ 2)%nat
    /\ (forall i, (i < 2 ^ 2)%nat ->
          amp_at w i = Csub (amp_at (init 2) i) (Cscale 2 (mean (init 2))))
    /\ forall i, (i < 2 ^ 2)%nat ->
          amp_at w i = Copp (amp_at (reflect_about_mean (init 2)) i).
Proof.
  apply (C2_apply_diffusion_closed_form 2 (init 2)); [lia | reflexivity].
Defined.

(** C5. For every [n >= 1] and every amplitude vector of length [2^n],
    the gates of two successive calls of [apply_diffusion] give the
    original vector back. *)
Theorem C5_apply_diffusion_twice_identity (n : nat) (v : statevector) :
  (1 <= n)%nat -> length v = (2 ^ n)%nat ->
  run_on (apply_diffusion n ;; apply_diffusion n) n v = Some v.
Proof.
  intros Hn L.
  rewrite (run_on_appends _ n (diffusion_gates n ++ diffusion_gates n))
    by (apply appends_seq; now apply appends_apply_diffusion).
  rewrite simulate_app. now rewrite simulate_diffusion_twice.
Qed.

Lemma C5_apply_diffusion_twice_witness :
  run_on (apply_diffusion 2 ;; apply_diffusion 2) 2 (init 2) = Some (init 2).
Proof.
  apply (C5_apply_diffusion_twice_identity 2 (init 2)); [lia | reflexivity].
Defined.

(** C8. For every amplitude vector of length [2^n] and every qubit
    [q < n], two successive X gates on [q] restore the vector exactly. *)
Theorem C8_pauliX_twice_identity (n q : nat) (v : statevector) :
  (q < n)%nat -> length v = (2 ^ n)%nat ->
  pauliX q (pauliX q v) = v
  /\ run_on (qc_x q ;; qc_x q) n v = Some v.
Proof.
  intros Hq L.
  assert (E : pauliX q (pauliX q v) = v).
  { rewrite !pauliX_xor_perm.
    rewrite (xor_perm_compose n) by auto using pow2_lt_pow2.
    rewrite Nat.lxor_nilpotent. apply xor_perm_0. }
  split; [exact E|].
  rewrite (run_on_appends _ n ([XGate q] ++ [XGate q]))
    by (apply appends_seq; now apply appends_qc_x).
  simpl. now rewrite E.
Qed.

Lemma C8_pauliX_twice_witness :
  pauliX 1 (pauliX 1 (init 2)) = init 2
  /\ run_on (qc_x 1 ;; qc_x 1) 2 (init 2) = Some (init 2).
Proof.
  apply (C8_pauliX_twice_identity 2 1 (init 2)); [lia | reflexivity].
Defined.

(** C9. For every [n >= 1], every binary target string of length [n] and
    every amplitude vector of length [2^n], the gates of two successive
    calls of [apply_oracle] restore the vector exactly. *)
Theorem C9_apply_oracle_twice_identity
    (n : nat) (t : string) (v : statevector) :
  (1 <= n)%nat -> String.length t = n -> is_binary t = true ->
  length v = (2 ^ n)%nat ->
  run_on (apply_oracle n t ;; apply_oracle n t) n v = Some v.
Proof.
  intros Hn Lt Bt L.
  assert (Lb : length (binary_bits t) = n) by (now rewrite binary_bits_length).
  assert (A : appends (apply_oracle n t) n (oracle_gates n (binary_bits t)))
    by (apply appends_apply_oracle; auto using target_bits_binary; lia).
  rewrite (run_on_appends _ n _ v (appends_seq _ _ n _ _ A A)).
  rewrite simulate_app.
  rewrite (simulate_oracle_gates n _ v) by assumption.
  rewrite simulate_oracle_gates by (rewrite ?negate_at_length; assumption).
  now rewrite negate_at_twice.
Qed.

Lemma C9_apply_oracle_twice_witness :
  run_on (apply_oracle 3 "101" ;; apply_oracle 3 "101") 3 (init 3)
  = Some (init 3).
Proof.
  apply (C9_apply_oracle_twice_identity 3 "101" (init 3));
    [lia | reflexivity | reflexivity | reflexivity].
Defined.

(** C3. On two qubits with target "11": after one iteration the state
    before measurement gives outcome "11" (index 3) probability 1 and every
    other outcome probability 0; after two iterations every one of the
    four outcomes has probability 1/4. *)
Theorem C3_two_qubit_oscillation :
  target_index "11" = 3%nat
  /\ (exists w,
        final_state (run_grovers_algorithm 2 "11" 1) = Some w
        /\ probability w 3 = 1
        /\ probability w 0 = 0 /\ probability w 1 = 0
        /\ probability w 2 = 0)
  /\ (exists w,
        final_state (run_grovers_algorithm 2 "11" 2) = Some w
        /\ probability w 3 = / 4
        /\ probability w 0 = / 4 /\ probability w 1 = / 4
        /\ probability w 2 = / 4).
Proof.
  split; [reflexivity|]. split.
  - rewrite final_state_run by (auto; lia). eexists. split; [reflexivity|].
    rewrite grover_amps_4_1. cbn [fst snd].
    change (target_index "11") with 3%nat. unfold probability.
    rewrite !amp_at_two_level by (simpl; lia). simpl. cunfold.
    repeat split; ring.
  - rewrite final_state_run by (auto; lia). eexists. split; [reflexivity|].
    rewrite grover_amps_4_2. cbn [fst snd].
    change (target_index "11") with 3%nat. unfold probability.
    rewrite !amp_at_two_level by (simpl; lia). simpl. cunfold.
    repeat split; field.
Qed.

(** C4. For every [n >= 1], binary target of length [n] and iteration
    count, the run returns a circuit, and after each of its gates (every
    prefix of the gate list, applied to |0...0>) the squared magnitudes sum
    to 1, hence to within 1e-6 of 1. *)
Theorem C4_total_probability_conserved (n k : nat) (t : string) :
  (1 <= n)%nat -> String.length t = n -> is_binary t = true ->
  exists qc,
    run_grovers_algorithm n t k = Done qc
    /\ forall j,
         total_probability
           (simulate (firstn j (data qc)) (init (num_qubits qc))) = 1
         /\ Rabs (total_probability
                    (simulate (firstn j (data qc)) (init (num_qubits qc)))
                  - 1) <= / 1000000.
Proof.
  intros Hn Lt Bt. eexists. split; [now apply run_circuit|].
  cbn [data num_qubits]. intros j.
  assert (E : total_probability
                (simulate (firstn j (grover_gates n (binary_bits t) k))
                          (init n)) = 1).
  { rewrite (simulate_norm n) by
        (auto using init_length; apply Forall_firstn, grover_gates_ok;
         rewrite ?binary_bits_length; lia).
    apply init_norm. }
  split; [exact E|]. rewrite E.
  replace (1 - 1) with 0 by ring. rewrite Rabs_R0. lra.
Qed.

Lemma C4_total_probability_witness :
  exists qc,
    run_grovers_algorithm 2 "11" 1 = Done qc
    /\ forall j,
         total_probability
           (simulate (firstn j (data qc)) (init (num_qubits qc))) = 1
         /\ Rabs (total_probability
                    (simulate (firstn j (data qc)) (init (num_qubits qc)))
                  - 1) <= / 1000000.
Proof.
  apply (C4_total_probability_conserved 2 1 "11");
    [lia | reflexivity | reflexivity].
Defined.

(** C6, as stated: after a run the target's probability would always
    exceed 1/2^n.  With two qubits, target "11" and two iterations it is
    exactly 1/4; with one qubit, target "1" and one iteration it is exactly
    1/2. *)
Lemma C6_amplification_counterexample :
  (exists w,
     final_state (run_grovers_algorithm 2 "11" 2) = Some w
     /\ probability w (target_index "11") = / 2 ^ 2
     /\ ~ probability w (target_index "11") > / 2 ^ 2)
  /\ (exists w,
        final_state (run_grovers_algorithm 1 "1" 1) = Some w
        /\ probability w (target_index "1") = / 2 ^ 1
        /\ ~ probability w (target_index "1") > / 2 ^ 1).
Proof.
  split.
  - rewrite final_state_run by (auto; lia). eexists. split; [reflexivity|].
    rewrite grover_amps_4_2. cbn [fst snd].
    assert (E : probability
                  (two_level (2 ^ 2) (target_index "11") (/ 2, 0) (- / 2, 0))
                  (target_index "11") = / 2 ^ 2).
    { unfold probability.
      rewrite amp_at_two_level by (exact (target_index_lt "11")).
      rewrite Nat.eqb_refl. cunfold. field. }
    split; [exact E | rewrite E; lra].
  - rewrite final_state_run by (auto; lia). eexists. split; [reflexivity|].
    assert (E : probability
                  (two_level (2 ^ 1) (target_index "1")
                     (fst (grover_amps (2 ^ 1) 1
                             (Cscale (inv_sqrt2 ^ 1) C1,
                              Cscale (inv_sqrt2 ^ 1) C1)))
                     (snd (grover_amps (2 ^ 1) 1
                             (Cscale (inv_sqrt2 ^ 1) C1,
                              Cscale (inv_sqrt2 ^ 1) C1))))
                  (target_index "1") = / 2 ^ 1).
    { unfold probability.
      rewrite amp_at_two_level by (exact (target_index_lt "1")).
      rewrite Nat.eqb_refl. cbn [grover_amps].
      rewrite one_round_probability. field. }
    split; [exact E | rewrite E; lra].
Qed.

(** C6, amended.  For every [n >= 2] and every binary target of length
    [n], after a run with one iteration the squared magnitude of the
    target's amplitude is strictly larger than [1/2^n]. *)
Theorem C6_one_iteration_amplifies (n : nat) (t : string) :
  (2 <= n)%nat -> String.length t = n -> is_binary t = true ->
  exists w,
    final_state (run_grovers_algorithm n t 1) = Some w
    /\ probability w (target_index t) > / 2 ^ n.
Proof.
  intros Hn Lt Bt. rewrite final_state_run by (auto; lia).
  eexists. split; [reflexivity|].
  unfold probability.
  rewrite amp_at_two_level by (rewrite <- Lt; apply target_index_lt).
  rewrite Nat.eqb_refl. cbn [grover_amps]. rewrite one_round_probability.
  assert (P := pow2_R_pos n). assert (G := pow2_R_ge_4 n Hn).
  set (M := 2 ^ n) in *.
  assert (I : 0 < / M) by (now apply Rinv_0_lt_compat).
  assert (Q : 4 / M <= 1).
  { apply (Rmult_le_reg_r M); [exact P|]. field_simplify; lra. }
  assert (S1 : 1 < (3 - 4 / M) * (3 - 4 / M)) by nra.
  rewrite <- (Rmult_1_r (/ M)) at 2.
  apply Rmult_lt_compat_l; assumption.
Qed.

Lemma C6_one_iteration_witness :
  exists w,
    final_state (run_grovers_algorithm 2 "11" 1) = Some w
    /\ probability w (target_index "11") > / 2 ^ 2.
Proof.
  apply (C6_one_iteration_amplifies 2 "11");
    [lia | reflexivity | reflexivity].
Defined.

(** C7, as stated: a target whose length differs from [n] would be
    rejected before any construction.  On two qubits the one-character
    target "1" is accepted and gives the very circuit of "11"; the
    three-character target "001" raises only at the X gate on the missing
    qubit 2, a qubit index error, with gates already appended. *)
Lemma C7_length_check_counterexample :
  String.length "1" <> 2%nat
  /\ run_grovers_algorithm 2 "1" 1
     = Done (mkCircuit 2
               [HGate 0; HGate 1;
                HGate 1; MCXGate [0%nat] 1; HGate 1;
                HGate 0; HGate 1; XGate 0; XGate 1;
                HGate 1; MCXGate [0%nat] 1; HGate 1;
                XGate 0; XGate 1; HGate 0; HGate 1;
                MeasureAll])
  /\ run_grovers_algorithm 2 "1" 1 = run_grovers_algorithm 2 "11" 1
  /\ run_grovers_algorithm 2 "001" 1
     = Raised CircuitError (mkCircuit 2 [HGate 0; HGate 1; XGate 1]).
Proof.
  split; [discriminate|]. split; [reflexivity|].
  split; reflexivity.
Qed.

(** C7, amended.  A binary target whose length differs from [n] is not
    rejected up front.  When its characters beyond the last [n] are all
    ['1'] (always so when it is shorter than [n]) the run returns normally
    with exactly the circuit of the target fitted to length [n]: the last
    [n] characters, left-padded with ['1'].  Otherwise a run with at least
    one iteration raises a qubit index error in [apply_oracle], after the
    initial Hadamard layer has been appended. *)
Theorem C7_wrong_length_target (n k : nat) (t : string) :
  (1 <= n)%nat -> is_binary t = true -> String.length t <> n ->
  if all_ones (surplus n t)
  then run_grovers_algorithm n t k
       = run_grovers_algorithm n (fit_target n t) k
       /\ String.length (fit_target n t) = n
       /\ (exists qc, run_grovers_algorithm n t k = Done qc)
  else exists gs,
         run_grovers_algorithm n t (S k)
         = Raised CircuitError (mkCircuit n (h_layer n ++ gs)).
Proof.
  intros Hn Bt _. destruct (all_ones (surplus n t)) eqn:E.
  - destruct (run_fit_target n k t Hn Bt E) as [R D].
    split; [exact R|]. split; [apply fit_target_length | exact D].
  - apply run_raises; [exact Hn | exact Bt|]. now apply surplus_zero_position.
Qed.

Lemma C7_wrong_length_target_witness :
  run_grovers_algorithm 2 "1" 1 = run_grovers_algorithm 2 "11" 1
  /\ String.length "11" = 2%nat
  /\ (exists qc, run_grovers_algorithm 2 "1" 1 = Done qc).
Proof.
  apply (C7_wrong_length_target 2 1 "1");
    [lia | reflexivity | discriminate].
Defined.

(** C10. With [iterations = 0] the run returns normally for every
    [n >= 1] and every target string: the circuit holds the initial
    Hadamard layer and the measurement only, and in the state before
    measurement each of the [2^n] outcomes has probability exactly
    [1/2^n]. *)
Theorem C10_zero_iterations_uniform (n : nat) (t : string) :
  (1 <= n)%nat ->
  exists qc,
    run_grovers_algorithm n t 0 = Done qc
    /\ data qc = map HGate (seq 0 n) ++ [MeasureAll]
    /\ exists w,
         final_state (Done qc) = Some w
         /\ length w = (2 ^ n)%nat
         /\ forall i, (i < 2 ^ n)%nat -> probability w i = / 2 ^ n.
Proof.
  intros Hn. eexists. split; [now apply run_circuit_0|].
  split; [reflexivity|].
  unfold final_state. cbn [data num_qubits].
  rewrite simulate_app, simulate_h_layer_init. simpl.
  eexists. split; [reflexivity|]. split; [apply repeat_length|].
  intros i Hi. unfold probability.
  rewrite (repeat_two_level _ 0), amp_at_two_level by assumption.
  destruct (Nat.eqb i 0); apply Cnorm2_uniform.
Qed.

Lemma C10_zero_iterations_witness :
  exists qc,
    run_grovers_algorithm 2 "11" 0 = Done qc
    /\ data qc = [HGate 0; HGate 1; MeasureAll]
    /\ exists w,
         final_state (Done qc) = Some w
         /\ length w = 4%nat
         /\ forall i, (i < 4)%nat -> probability w i = / 2 ^ 2.
Proof. apply (C10_zero_iterations_uniform 2 "11"). lia. Defined.

(* ================================================================= *)
(** * Further properties of the program *)

(** ** The list of target options *)

Lemma bin_digits_length (i : nat) : length (bin_digits i) = S (Nat.log2 i).
Proof. unfold bin_digits. now rewrite length_map, length_rev, length_seq. Qed.

Lemma testbit_above_log2 (i q : nat) :
  (Nat.log2 i < q)%nat -> Nat.testbit i q = false.
Proof.
  intros H. destruct (Nat.eq_dec i 0) as [->|Hne]; [apply Nat.bits_0|].
  apply Nat.bits_above_log2. exact H.
Qed.

Lemma map_const_repeat {A B : Type} (f : A -> B) (b : B) (l : list A) :
  (forall x, In x l -> f x = b) -> map f l = repeat b (length l).
Proof.
  induction l as [|a l IH]; intros H; simpl; [reflexivity|].
  rewrite (H a) by (now left). f_equal. apply IH. intros x Hx. apply H.
  now right.
Qed.

(** The characters of [format_binary width i] are the digits of [i] at the
    positions below [max width (number of digits)], highest first. *)
Lemma format_binary_chars (width i : nat) :
  list_ascii_of_string (format_binary width i)
  = map (bit_char i) (rev (seq 0 (Nat.max width (S (Nat.log2 i))))).
Proof.
  unfold format_binary. rewrite list_ascii_of_string_of_list_ascii.
  rewrite bin_digits_length. unfold bin_digits.
  set (L := S (Nat.log2 i)).
  replace (Nat.max width L) with (L + (width - L))%nat by lia.
  rewrite seq_app, rev_app_distr, map_app. f_equal.
  rewrite (map_const_repeat _ "0"%char).
  - now rewrite length_rev, length_seq.
  - intros q Hq. apply in_rev, in_seq in Hq. unfold bit_char.
    rewrite testbit_above_log2 by (unfold L in Hq; lia). reflexivity.
Qed.

Lemma log2_lt_width (n i : nat) :
  (1 <= n)%nat -> (i < 2 ^ n)%nat -> Nat.max n (S (Nat.log2 i)) = n.
Proof.
  intros Hn Hi. destruct (Nat.eq_dec i 0) as [->|Hne].
  - assert (E : Nat.log2 0 = 0%nat) by reflexivity. lia.
  - assert (Nat.log2 i < n)%nat by (apply Nat.log2_lt_pow2; lia). lia.
Qed.

Lemma format_binary_length (width i : nat) :
  String.length (format_binary width i) = Nat.max width (S (Nat.log2 i)).
Proof.
  rewrite <- length_list_ascii, format_binary_chars.
  now rewrite length_map, length_rev, length_seq.
Qed.

Lemma bit_char_binary (i q : nat) : is_binary_char (bit_char i q) = true.
Proof. unfold bit_char. now destruct (Nat.testbit i q). Qed.

Lemma format_binary_is_binary (width i : nat) :
  is_binary (format_binary width i) = true.
Proof.
  unfold is_binary. rewrite format_binary_chars. apply forallb_forall.
  intros c Hc. apply in_map_iff in Hc. destruct Hc as (q & <- & _).
  apply bit_char_binary.
Qed.

Lemma bit_of_bit_char (i q : nat) :
  bit_of_char (bit_char i q) = Nat.b2n (Nat.testbit i q).
Proof. unfold bit_of_char, bit_char. now destruct (Nat.testbit i q). Qed.

Lemma binary_bits_format_binary (width i : nat) :
  binary_bits (format_binary width i)
  = map (fun q => Nat.b2n (Nat.testbit i q))
        (seq 0 (Nat.max width (S (Nat.log2 i)))).
Proof.
  unfold binary_bits. rewrite format_binary_chars.
  rewrite <- map_rev, rev_involutive, map_map.
  apply map_ext. intros q. apply bit_of_bit_char.
Qed.

Lemma lt_pow2_S_log2 (i : nat) : (i < 2 ^ S (Nat.log2 i))%nat.
Proof.
  destruct (Nat.eq_dec i 0) as [->|Hne]; [simpl; lia|].
  apply Nat.log2_spec. lia.
Qed.

(** Reading a formatted number back with [int(s, 2)] gives the number. *)
Lemma target_index_format_binary (width i : nat) :
  target_index (format_binary width i) = i.
Proof.
  rewrite <- index_le_binary_bits, binary_bits_format_binary.
  set (W := Nat.max width (S (Nat.log2 i))).
  assert (Hi : (i < 2 ^ W)%nat).
  { apply Nat.lt_le_trans with (2 ^ S (Nat.log2 i))%nat;
      [apply lt_pow2_S_log2 | apply Nat.pow_le_mono_r; unfold W; lia]. }
  apply Nat.bits_inj. intros q. rewrite testbit_index_le.
  destruct (Nat.lt_ge_cases q W) as [L|G].
  - rewrite (nth_indep _ 0%nat (Nat.b2n (Nat.testbit i 0)))
      by (now rewrite length_map, length_seq).
    rewrite (map_nth (fun q => Nat.b2n (Nat.testbit i q))).
    rewrite seq_nth by exact L. simpl.
    now destruct (Nat.testbit i q).
  - rewrite nth_overflow by (now rewrite length_map, length_seq).
    simpl. symmetry. now apply (testbit_small i W).
Qed.

Lemma map_nth_seq {A : Type} (d : A) (l : list A) :
  map (fun q => nth q l d) (seq 0 (length l)) = l.
Proof.
  apply (nth_ext _ _ d d).
  - now rewrite length_map, length_seq.
  - intros q Hq. rewrite length_map, length_seq in Hq.
    rewrite (nth_indep _ d (nth 0 l d)) by (now rewrite length_map, length_seq).
    rewrite (map_nth (fun q => nth q l d)), seq_nth by exact Hq. reflexivity.
Qed.

Lemma binary_char_canonical (c : ascii) :
  is_binary_char c = true ->
  (if Ascii.eqb c "1"%char then "1"%char else "0"%char) = c.
Proof.
  unfold is_binary_char. intros H. apply orb_true_iff in H.
  destruct H as [H|H]; apply Ascii.eqb_eq in H; now subst c.
Qed.

(** Formatting the value of a binary string to its own length gives the
    string back. *)
Lemma format_binary_target_index (t : string) :
  (1 <= String.length t)%nat -> is_binary t = true ->
  format_binary (String.length t) (target_index t) = t.
Proof.
  intros Hn Bt.
  rewrite <- (string_of_list_ascii_of_string t) at 3.
  rewrite <- (string_of_list_ascii_of_string (format_binary _ _)).
  f_equal. rewrite format_binary_chars.
  rewrite log2_lt_width by (auto using target_index_lt).
  rewrite map_rev. unfold bit_char.
  rewrite (map_ext _ (fun q => nth q (rev (list_ascii_of_string t)) "0"%char)).
  - rewrite <- length_list_ascii, <- length_rev, map_nth_seq.
    apply rev_involutive.
  - intros q. rewrite testbit_target_index.
    destruct (Nat.lt_ge_cases q (length (rev (list_ascii_of_string t))))
      as [L|G].
    + apply binary_char_canonical. unfold is_binary in Bt.
      rewrite forallb_forall in Bt. apply Bt. apply in_rev.
      now apply nth_In.
    + now rewrite nth_overflow by exact G.
Qed.

Lemma get_possible_states_length (n : nat) :
  length (get_possible_states n) = (2 ^ n)%nat.
Proof. unfold get_possible_states. now rewrite length_map, length_seq. Qed.

Lemma get_possible_states_nth (n i : nat) :
  (i < 2 ^ n)%nat ->
  nth i (get_possible_states n) EmptyString = format_binary n i.
Proof.
  intros Hi. unfold get_possible_states.
  rewrite (nth_indep _ EmptyString (format_binary n 0))
    by (now rewrite length_map, length_seq).
  rewrite map_nth, seq_nth by exact Hi. reflexivity.
Qed.

Lemma NoDup_map_injective {A B : Type} (f : A -> B) (l : list A) :
  (forall x y, f x = f y -> x = y) -> NoDup l -> NoDup (map f l).
Proof.
  intros Hf H. induction H as [|a l Ha _ IH]; simpl; constructor; auto.
  intros Hin. apply in_map_iff in Hin. destruct Hin as (x & E & Hx).
  apply Hf in E. now subst x.
Qed.

Lemma format_binary_injective (n i j : nat) :
  format_binary n i = format_binary n j -> i = j.
Proof.
  intros E. rewrite <- (target_index_format_binary n i).
  rewrite <- (target_index_format_binary n j). now rewrite E.
Qed.

(** X1. For [n >= 1], [get_possible_states n] lists exactly the binary
    strings of length [n], each of them once: it has [2^n] entries without
    repetition, and a string occurs in it if and only if it has [n]
    characters, all ['0'] or ['1']. *)
Theorem get_possible_states_enumerates (n : nat) :
  (1 <= n)%nat ->
  length (get_possible_states n) = (2 ^ n)%nat
  /\ NoDup (get_possible_states n)
  /\ forall t, In t (get_possible_states n)
               <-> (String.length t = n /\ is_binary t = true).
Proof.
  intros Hn. split; [apply get_possible_states_length|]. split.
  - unfold get_possible_states. apply NoDup_map_injective.
    + apply format_binary_injective.
    + apply seq_NoDup.
  - intros t. unfold get_possible_states. rewrite in_map_iff. split.
    + intros (i & <- & Hi). apply in_seq in Hi. split.
      * rewrite format_binary_length. apply log2_lt_width; [exact Hn | lia].
      * apply format_binary_is_binary.
    + intros [Lt Bt]. exists (target_index t). split.
      * rewrite <- Lt. apply format_binary_target_index; [lia | exact Bt].
      * apply in_seq. rewrite <- Lt. assert (H := target_index_lt t). lia.
Qed.

Lemma get_possible_states_enumerates_witness :
  length (get_possible_states 2) = (2 ^ 2)%nat
  /\ NoDup (get_possible_states 2)
  /\ forall t, In t (get_possible_states 2)
               <-> (String.length t = 2%nat /\ is_binary t = true).
Proof. apply (get_possible_states_enumerates 2). lia. Defined.

(** X2. The options come in numerical order: for every [n], the entry at
    position [i < 2^n] of [get_possible_states n] reads back as [i] under
    [int(s, 2)], consists of ['0'] and ['1'] only, and has [max n 1]
    characters (for [n = 0] the single entry is one character long). *)
Theorem get_possible_states_nth_reads_back (n i : nat) :
  (i < 2 ^ n)%nat ->
  target_index (nth i (get_possible_states n) EmptyString) = i
  /\ is_binary (nth i (get_possible_states n) EmptyString) = true
  /\ String.length (nth i (get_possible_states n) EmptyString)
     = Nat.max n 1.
Proof.
  intros Hi. rewrite get_possible_states_nth by exact Hi.
  split; [apply target_index_format_binary|].
  split; [apply format_binary_is_binary|].
  rewrite format_binary_length.
  destruct n as [|n].
  - simpl in Hi. assert (i = 0%nat) by lia. subst i. reflexivity.
  - rewrite log2_lt_width by (auto; lia). lia.
Qed.

Lemma get_possible_states_nth_witness :
  target_index (nth 5 (get_possible_states 3) EmptyString) = 5%nat
  /\ is_binary (nth 5 (get_possible_states 3) EmptyString) = true
  /\ String.length (nth 5 (get_possible_states 3) EmptyString)
     = Nat.max 3 1.
Proof. apply (get_possible_states_nth_reads_back 3 5). simpl. lia. Defined.

(** The docstring's example. *)
Lemma get_possible_states_2 :
  get_possible_states 2 = ["00"; "01"; "10"; "11"]%string.
Proof. reflexivity. Qed.

(** X3. For [n >= 1] the option the application preselects, the last one
    of the list, is the string of [n] characters ['1']. *)
Theorem default_target_all_ones (n : nat) :
  (1 <= n)%nat ->
  default_target n = string_of_list_ascii (repeat "1"%char n).
Proof.
  intros Hn. unfold default_target. rewrite get_possible_states_length.
  assert (P := pow2_pos n).
  rewrite get_possible_states_nth by lia.
  rewrite <- (string_of_list_ascii_of_string (format_binary _ _)).
  f_equal. rewrite format_binary_chars, log2_lt_width by (auto; lia).
  rewrite (map_const_repeat _ "1"%char).
  - now rewrite length_rev, length_seq.
  - intros q Hq. apply in_rev, in_seq in Hq. unfold bit_char.
    replace (2 ^ n - 1)%nat with (Nat.ones n)
      by (rewrite Nat.ones_equiv; lia).
    rewrite Nat.ones_spec_low by lia. reflexivity.
Qed.

Lemma default_target_all_ones_witness :
  default_target 3 = "111"%string.
Proof. apply (default_target_all_ones 3). lia. Defined.

(** X4. Every option the application offers is accepted: for [n >= 1],
    any position [i < 2^n] and any iteration count, the run on the [i]-th
    option returns a circuit, and the oracle built for that option negates
    exactly the amplitude at index [i]. *)
Theorem offered_target_runs_and_marks_its_position (n i k : nat) :
  (1 <= n)%nat -> (i < 2 ^ n)%nat ->
  (exists qc,
     run_grovers_algorithm n (nth i (get_possible_states n) EmptyString) k
     = Done qc)
  /\ forall v, length v = (2 ^ n)%nat ->
       run_on (apply_oracle n (nth i (get_possible_states n) EmptyString)) n v
       = Some (negate_at i v).
Proof.
  intros Hn Hi. rewrite get_possible_states_nth by exact Hi.
  assert (Lt : String.length (format_binary n i) = n)
    by (rewrite format_binary_length; now apply log2_lt_width).
  assert (Bt := format_binary_is_binary n i). split.
  - eexists. now apply run_circuit.
  - intros v L. rewrite run_on_apply_oracle by assumption.
    now rewrite target_index_format_binary.
Qed.

Lemma offered_target_witness :
  (exists qc,
     run_grovers_algorithm 2 (nth 3 (get_possible_states 2) EmptyString) 1
     = Done qc)
  /\ forall v, length v = (2 ^ 2)%nat ->
       run_on (apply_oracle 2 (nth 3 (get_possible_states 2) EmptyString)) 2 v
       = Some (negate_at 3 v).
Proof.
  apply (offered_target_runs_and_marks_its_position 2 3 1); simpl; lia.
Defined.

(* ================================================================= *)
(** ** Characters that are not binary digits *)

Lemma int_of_char_digit (c : ascii) :
  is_digit c = true -> int_of_char c = Some (nat_of_ascii c - 48)%nat.
Proof. unfold is_digit, int_of_char. intros H. cbv zeta. now rewrite H. Qed.

Lemma int_of_char_non_digit (c : ascii) :
  is_digit c = false -> int_of_char c = None.
Proof. unfold is_digit, int_of_char. intros H. cbv zeta. now rewrite H. Qed.

Lemma ints_of_digit_chars (cs : list ascii) :
  forallb is_digit cs = true ->
  ints_of_chars cs = Some (map (fun c => (nat_of_ascii c - 48)%nat) cs).
Proof.
  induction cs as [|c r IH]; simpl; intros H; [reflexivity|].
  apply andb_true_iff in H. destruct H as [Hc Hr].
  now rewrite (int_of_char_digit c Hc), (IH Hr).
Qed.

Lemma ints_of_non_digit_chars (cs : list ascii) :
  forallb is_digit cs = false -> ints_of_chars cs = None.
Proof.
  induction cs as [|c r IH]; simpl; intros H; [discriminate|].
  destruct (is_digit c) eqn:E.
  - simpl in H. rewrite (IH H). now destruct (int_of_char c).
  - now rewrite (int_of_char_non_digit c E).
Qed.

Lemma target_bits_non_digit (t : string) :
  all_digits t = false -> target_bits t = None.
Proof.
  unfold all_digits, target_bits. intros H.
  apply ints_of_non_digit_chars. now rewrite forallb_rev.
Qed.

Lemma has_ascii_non_digit_not_all_digits (t : string) :
  has_ascii_non_digit t = true -> all_digits t = false.
Proof.
  unfold has_ascii_non_digit, all_digits. intros H.
  apply existsb_exists in H. destruct H as (c & Hc & Fc).
  apply andb_true_iff in Fc. destruct Fc as [_ Fc].
  destruct (forallb is_digit (list_ascii_of_string t)) eqn:E; [|reflexivity].
  rewrite forallb_forall in E. rewrite (E c Hc) in Fc. discriminate.
Qed.

(** X5. A target string with an ASCII character that is not a decimal
    digit makes [apply_oracle] raise [ValueError] before it touches the
    circuit, on any circuit and whatever the length of the string; for
    [n >= 1] a run with at least one iteration therefore raises
    [ValueError] with just the initial Hadamard layer appended. *)
Theorem non_digit_target_raises_value_error (n k : nat) (t : string) :
  (1 <= n)%nat -> has_ascii_non_digit t = true ->
  (forall m qc, apply_oracle m t qc = Raised ValueError qc)
  /\ run_grovers_algorithm n t (S k)
     = Raised ValueError (mkCircuit n (map HGate (seq 0 n))).
Proof.
  intros Hn H.
  assert (T := target_bits_non_digit t
                 (has_ascii_non_digit_not_all_digits t H)).
  assert (A : forall m qc, apply_oracle m t qc = Raised ValueError qc)
    by (intros m qc; unfold apply_oracle; now rewrite T).
  split; [exact A|].
  unfold run_grovers_algorithm, seq_op at 1.
  rewrite (appends_h_range n Hn []). simpl.
  unfold seq_op. now rewrite A.
Qed.

Lemma non_digit_target_witness :
  (forall m qc, apply_oracle m "1x" qc = Raised ValueError qc)
  /\ run_grovers_algorithm 2 "1x" 1
     = Raised ValueError (mkCircuit 2 [HGate 0; HGate 1]).
Proof.
  apply (non_digit_target_raises_value_error 2 0 "1x"); [lia | reflexivity].
Defined.

Lemma seq_op_ext (a a' b b' : circ_op) :
  (forall qc, a qc = a' qc) -> (forall qc, b qc = b' qc) ->
  forall qc, (a ;; b) qc = (a' ;; b') qc.
Proof.
  intros Ha Hb qc. unfold seq_op. rewrite Ha.
  destruct (a' qc); [apply Hb | reflexivity].
Qed.

Lemma repeat_op_ext (k : nat) (a a' : circ_op) :
  (forall qc, a qc = a' qc) ->
  forall qc, repeat_op k a qc = repeat_op k a' qc.
Proof.
  intros H. induction k as [|k IH]; intros qc; [reflexivity|].
  simpl. now apply seq_op_ext.
Qed.

Lemma x_where_zero_from_ext (k : nat) (b c : list nat) :
  map (fun x => Nat.eqb x 0) b = map (fun x => Nat.eqb x 0) c ->
  forall qc,
    for_each (combine (seq k (length b)) b)
      (fun p => if Nat.eqb (snd p) 0 then qc_x (fst p) else skip) qc
    = for_each (combine (seq k (length c)) c)
        (fun p => if Nat.eqb (snd p) 0 then qc_x (fst p) else skip) qc.
Proof.
  revert k c. induction b as [|x b IH]; intros k [|y c] H;
    simpl in H; try discriminate; [reflexivity|].
  injection H as Hxy Hbc. intros qc. simpl. rewrite Hxy.
  apply seq_op_ext; [reflexivity | apply IH; exact Hbc].
Qed.

Lemma apply_oracle_ext (n : nat) (t t' : string) (b c : list nat) :
  target_bits t = Some b -> target_bits t' = Some c ->
  map (fun x => Nat.eqb x 0) b = map (fun x => Nat.eqb x 0) c ->
  forall qc, apply_oracle n t qc = apply_oracle n t' qc.
Proof.
  intros Hb Hc H qc. unfold apply_oracle. rewrite Hb, Hc.
  assert (X : forall qc, x_where_zero b qc = x_where_zero c qc)
    by (apply x_where_zero_from_ext; exact H).
  apply seq_op_ext; [exact X|]. intros qc'.
  apply seq_op_ext; [reflexivity | exact X].
Qed.

Lemma nat_of_ascii_48 (c : ascii) :
  Nat.eqb (nat_of_ascii c - 48) 0 && is_digit c
  = Ascii.eqb c "0"%char && is_digit c.
Proof.
  destruct (is_digit c) eqn:D; [|now rewrite !andb_false_r].
  rewrite !andb_true_r. unfold is_digit in D.
  apply andb_true_iff in D. destruct D as [D1 D2].
  apply Nat.leb_le in D1.
  destruct (Ascii.eqb_spec c "0"%char) as [->|Hne]; [reflexivity|].
  apply Nat.eqb_neq. intros E. apply Hne.
  rewrite <- (ascii_nat_embedding c).
  replace (nat_of_ascii c) with 48%nat by lia. reflexivity.
Qed.

Lemma binarize_chars (t : string) :
  list_ascii_of_string (binarize t)
  = map (fun c => if Ascii.eqb c "0"%char then "0"%char else "1"%char)
        (list_ascii_of_string t).
Proof. unfold binarize. apply list_ascii_of_string_of_list_ascii. Qed.

Lemma is_binary_binarize (t : string) : is_binary (binarize t) = true.
Proof.
  unfold is_binary. rewrite binarize_chars. apply forallb_forall.
  intros c Hc. apply in_map_iff in Hc. destruct Hc as (x & <- & _).
  now destruct (Ascii.eqb x "0").
Qed.

Lemma zero_flags_binarize (cs : list ascii) :
  forallb is_digit cs = true ->
  map (fun x => Nat.eqb x 0) (map (fun c => (nat_of_ascii c - 48)%nat) cs)
  = map (fun x => Nat.eqb x 0)
        (map bit_of_char
             (map (fun c => if Ascii.eqb c "0"%char then "0"%char
                            else "1"%char) cs)).
Proof.
  intros H. rewrite !map_map. apply map_ext_in. intros c Hc.
  rewrite forallb_forall in H. assert (D := H c Hc).
  assert (E := nat_of_ascii_48 c). rewrite D, !andb_true_r in E.
  rewrite E. now destruct (Ascii.eqb c "0").
Qed.

(** X6. In a target string of decimal digits every digit other than ['0']
    acts as ['1']: for any qubit count and iteration count the run behaves
    exactly as on the string with those digits replaced by ['1'], be it a
    returned circuit or a raised error. *)
Theorem nonzero_digits_act_as_ones (n k : nat) (t : string) :
  all_digits t = true ->
  is_binary (binarize t) = true
  /\ String.length (binarize t) = String.length t
  /\ run_grovers_algorithm n t k = run_grovers_algorithm n (binarize t) k.
Proof.
  intros H. split; [apply is_binary_binarize|]. split.
  - rewrite <- !length_list_ascii, binarize_chars. apply length_map.
  - unfold all_digits in H.
    assert (Tb : target_bits t
                 = Some (map (fun c => (nat_of_ascii c - 48)%nat)
                             (rev (list_ascii_of_string t))))
      by (apply ints_of_digit_chars; now rewrite forallb_rev).
    assert (Tc := target_bits_binary _ (is_binary_binarize t)).
    assert (O : forall qc, apply_oracle n t qc
                           = apply_oracle n (binarize t) qc).
    { apply (apply_oracle_ext n _ _ _ _ Tb Tc).
      unfold binary_bits. rewrite binarize_chars, <- map_rev.
      apply zero_flags_binarize. now rewrite forallb_rev. }
    unfold run_grovers_algorithm.
    apply seq_op_ext; [reflexivity|]. intros qc.
    apply seq_op_ext; [|reflexivity].
    apply repeat_op_ext. intros qc'.
    apply seq_op_ext; [exact O | reflexivity].
Qed.

Lemma nonzero_digits_witness :
  is_binary (binarize "7025") = true
  /\ String.length (binarize "7025") = String.length "7025"
  /\ run_grovers_algorithm 4 "7025" 2
     = run_grovers_algorithm 4 (binarize "7025") 2.
Proof. apply (nonzero_digits_act_as_ones 4 2 "7025"). reflexivity. Defined.

(* ================================================================= *)
(** ** Size of the circuit *)

Lemma zero_positions_length (k : nat) (bits : list nat) :
  length (zero_positions k bits)
  = length (filter (fun b => Nat.eqb b 0) bits).
Proof.
  revert k. induction bits as [|b r IH]; intros k; simpl; [reflexivity|].
  destruct (Nat.eqb b 0); simpl; now rewrite IH.
Qed.

Lemma zero_bits_count (t : string) :
  is_binary t = true ->
  length (zero_positions 0 (binary_bits t)) = count_zeros t.
Proof.
  unfold is_binary, binary_bits, count_zeros. intros H.
  rewrite zero_positions_length.
  assert (G : forall l, forallb is_binary_char l = true ->
                length (filter (fun b => Nat.eqb b 0) (map bit_of_char l))
                = length (filter (fun c => Ascii.eqb c "0"%char) l)).
  { induction l as [|c l IH]; simpl; intros Hl; [reflexivity|].
    apply andb_true_iff in Hl. destruct Hl as [Hc Hl].
    unfold is_binary_char in Hc. apply orb_true_iff in Hc.
    destruct Hc as [Hc|Hc]; apply Ascii.eqb_eq in Hc; subst c; simpl;
      now rewrite IH. }
  rewrite G by (now rewrite forallb_rev).
  now rewrite filter_rev, length_rev.
Qed.

Lemma iterate_gates_length (k : nat) (gs : list instruction) :
  length (iterate_gates k gs) = (k * length gs)%nat.
Proof.
  induction k as [|k IH]; simpl; [reflexivity|].
  now rewrite length_app, IH.
Qed.

(** X7. For [n >= 1] and a binary target of length [n] the returned
    circuit holds [n + k*(2*z + 4*n + 6) + 1] instructions, [k] the
    iteration count and [z] the number of ['0'] characters of the target:
    the size grows linearly with the iterations, and each ['0'] of the
    target costs two X gates per iteration. *)
Theorem circuit_size (n k : nat) (t : string) :
  (1 <= n)%nat -> String.length t = n -> is_binary t = true ->
  exists qc,
    run_grovers_algorithm n t k = Done qc
    /\ length (data qc)
       = (n + k * (2 * count_zeros t + 4 * n + 6) + 1)%nat.
Proof.
  intros Hn Lt Bt. eexists. split; [now apply run_circuit|].
  cbn [data]. unfold grover_gates.
  rewrite !length_app, iterate_gates_length, length_app.
  unfold oracle_gates, diffusion_gates, h_layer, x_layer, mcz_gates.
  rewrite !length_app, !length_map, !length_seq, zero_bits_count by exact Bt.
  simpl. lia.
Qed.

Lemma circuit_size_witness :
  exists qc,
    run_grovers_algorithm 3 "101" 2 = Done qc
    /\ length (data qc) = (3 + 2 * (2 * count_zeros "101" + 4 * 3 + 6) + 1)%nat.
Proof.
  apply (circuit_size 3 2 "101"); [lia | reflexivity | reflexivity].
Defined.

(* ================================================================= *)
(** ** The construction only appends *)




















(* ================================================================= *)
(** ** No qubits *)


(* ================================================================= *)
(** ** Shape of the final distribution *)

Lemma total_probability_two_level_gen (len k : nat) (a b : C) :
  total_probability (two_level len k a b)
  = if Nat.ltb k len then Cnorm2 a + (INR len - 1) * Cnorm2 b
    else INR len * Cnorm2 b.
Proof.
  unfold two_level. induction len as [|len IH].
  - simpl. unfold total_probability. simpl. ring.
  - rewrite tabulate_succ, total_probability_app, IH, S_INR.
    unfold total_probability at 1. simpl fold_right.
    destruct (Nat.ltb_spec k len), (Nat.ltb_spec k (S len)),
             (Nat.eqb_spec len k); try lia; ring.
Qed.

Lemma final_state_run_norm (n k : nat) (t : string) :
  (1 <= n)%nat -> String.length t = n -> is_binary t = true ->
  forall w, final_state (run_grovers_algorithm n t k) = Some w ->
            total_probability w = 1.
Proof.
  intros Hn Lt Bt w. rewrite run_circuit by assumption.
  unfold final_state. cbn [data num_qubits]. intros E. injection E as <-.
  rewrite (simulate_norm n)
    by (auto using init_length; apply grover_gates_ok;
        rewrite ?binary_bits_length; lia).
  apply init_norm.
Qed.

(** X10. For [n >= 1], a binary target of length [n] and any iteration
    count, the state before measurement treats all wrong outcomes alike:
    they share one amplitude, so each of the [2^n - 1] outcomes other than
    the target has probability [(1 - p) / (2^n - 1)], [p] being the
    probability of the target. *)
Theorem wrong_outcomes_equally_likely (n k : nat) (t : string) :
  (1 <= n)%nat -> String.length t = n -> is_binary t = true ->
  exists w,
    final_state (run_grovers_algorithm n t k) = Some w
    /\ (forall i j, (i < 2 ^ n)%nat -> (j < 2 ^ n)%nat ->
          i <> target_index t -> j <> target_index t ->
          amp_at w i = amp_at w j)
    /\ forall j, (j < 2 ^ n)%nat -> j <> target_index t ->
         probability w j
         = (1 - probability w (target_index t)) / (2 ^ n - 1).
Proof.
  intros Hn Lt Bt.
  assert (F := final_state_run n k t Hn Lt Bt).
  assert (N := final_state_run_norm n k t Hn Lt Bt _ F).
  eexists. split; [exact F|].
  set (ab := grover_amps (2 ^ n) k _) in *.
  assert (Ht : (target_index t < 2 ^ n)%nat)
    by (rewrite <- Lt; apply target_index_lt).
  split.
  - intros i j Hi Hj Ni Nj. rewrite !amp_at_two_level by assumption.
    destruct (Nat.eqb_spec i (target_index t)); [contradiction|].
    destruct (Nat.eqb_spec j (target_index t)); [contradiction|].
    reflexivity.
  - intros j Hj Nj. unfold probability.
    rewrite !amp_at_two_level by assumption. rewrite Nat.eqb_refl.
    destruct (Nat.eqb_spec j (target_index t)); [contradiction|].
    rewrite total_probability_two_level_gen, INR_pow2 in N.
    replace (Nat.ltb (target_index t) (2 ^ n)) with true in N
      by (symmetry; now apply Nat.ltb_lt).
    assert (G : 2 <= 2 ^ n).
    { replace 2 with (2 ^ 1) at 1 by (simpl; lra).
      apply Rle_pow; [lra | exact Hn]. }
    apply (Rmult_eq_reg_r (2 ^ n - 1)); [|lra].
    field_simplify; [lra | lra].
Qed.

Lemma wrong_outcomes_witness :
  exists w,
    final_state (run_grovers_algorithm 3 "101" 2) = Some w
    /\ (forall i j, (i < 2 ^ 3)%nat -> (j < 2 ^ 3)%nat ->
          i <> target_index "101" -> j <> target_index "101" ->
          amp_at w i = amp_at w j)
    /\ forall j, (j < 2 ^ 3)%nat -> j <> target_index "101" ->
         probability w j
         = (1 - probability w (target_index "101")) / (2 ^ 3 - 1).
Proof.
  apply (wrong_outcomes_equally_likely 3 2 "101");
    [lia | reflexivity | reflexivity].
Defined.

(** X11. The probability of finding the target depends on the number of
    qubits and of iterations only, not on which target was chosen. *)
Theorem success_probability_independent_of_target
    (n k : nat) (t t' : string) :
  (1 <= n)%nat ->
  String.length t = n -> is_binary t = true ->
  String.length t' = n -> is_binary t' = true ->
  exists w w',
    final_state (run_grovers_algorithm n t k) = Some w
    /\ final_state (run_grovers_algorithm n t' k) = Some w'
    /\ probability w (target_index t) = probability w' (target_index t').
Proof.
  intros Hn Lt Bt Lt' Bt'.
  assert (Ht : (target_index t < 2 ^ n)%nat)
    by (rewrite <- Lt; apply target_index_lt).
  assert (Ht' : (target_index t' < 2 ^ n)%nat)
    by (rewrite <- Lt'; apply target_index_lt).
  do 2 eexists.
  split; [now apply final_state_run|].
  split; [now apply final_state_run|].
  unfold probability. rewrite !amp_at_two_level by assumption.
  now rewrite !Nat.eqb_refl.
Qed.

Lemma success_probability_witness :
  exists w w',
    final_state (run_grovers_algorithm 2 "01" 1) = Some w
    /\ final_state (run_grovers_algorithm 2 "10" 1) = Some w'
    /\ probability w (target_index "01") = probability w' (target_index "10").
Proof.
  apply (success_probability_independent_of_target 2 1 "01" "10");
    [lia | reflexivity | reflexivity | reflexivity | reflexivity].
Defined.

(* ================================================================= *)
(** ** Iterating on two and three qubits *)

Lemma grover_amps_add (len j k : nat) (ab : C * C) :
  grover_amps len (j + k) ab = grover_amps len k (grover_amps len j ab).
Proof.
  revert ab. induction j as [|j IH]; intros ab; [reflexivity|].
  simpl. apply IH.
Qed.

Lemma grover_amps_4_period (ab : C * C) : grover_amps (2 ^ 2) 3 ab = ab.
Proof.
  destruct ab as [[x y] [z w]]. simpl. cunfold. f_equal; f_equal; field.
Qed.

Lemma grover_amps_4_mod (j r : nat) (ab : C * C) :
  grover_amps (2 ^ 2) (3 * j + r) ab = grover_amps (2 ^ 2) r ab.
Proof.
  induction j as [|j IH]; [reflexivity|].
  replace (3 * S j + r)%nat with (3 + (3 * j + r))%nat by lia.
  now rewrite grover_amps_add, grover_amps_4_period.
Qed.

(** X12. On two qubits the run is periodic in the iteration count with
    period 3, for each of the four targets: [k + 3] iterations leave the
    same state before measurement as [k].  The probability of the target
    is 1 after [3j + 1] iterations and 1/4 after [3j + 2] and after
    [3j + 3] iterations; in particular it is 1/4 after 3 iterations and 1
    after 4. *)
Theorem two_qubit_period_three (t : string) (k j : nat) :
  String.length t = 2%nat -> is_binary t = true ->
  final_state (run_grovers_algorithm 2 t (k + 3))
  = final_state (run_grovers_algorithm 2 t k)
  /\ exists w1 w2 w3,
       final_state (run_grovers_algorithm 2 t (3 * j + 1)) = Some w1
       /\ probability w1 (target_index t) = 1
       /\ final_state (run_grovers_algorithm 2 t (3 * j + 2)) = Some w2
       /\ probability w2 (target_index t) = / 4
       /\ final_state (run_grovers_algorithm 2 t (3 * j + 3)) = Some w3
       /\ probability w3 (target_index t) = / 4.
Proof.
  intros Lt Bt.
  assert (Ht : (target_index t < 2 ^ 2)%nat)
    by (assert (H := target_index_lt t); now rewrite Lt in H).
  split.
  - rewrite !final_state_run by (auto; lia).
    now rewrite grover_amps_add, grover_amps_4_period.
  - do 3 eexists.
    split; [apply final_state_run; auto; lia|].
    split; [|split; [apply final_state_run; auto; lia|]].
    2: split; [|split; [apply final_state_run; auto; lia|]].
    + unfold probability. rewrite amp_at_two_level, Nat.eqb_refl by exact Ht.
      rewrite grover_amps_4_mod, grover_amps_4_1. cunfold. ring.
    + unfold probability. rewrite amp_at_two_level, Nat.eqb_refl by exact Ht.
      rewrite grover_amps_4_mod, grover_amps_4_2. cunfold. field.
    + unfold probability. rewrite amp_at_two_level, Nat.eqb_refl by exact Ht.
      rewrite grover_amps_4_mod, grover_amps_4_period. cbn [fst].
      rewrite Cnorm2_uniform. simpl. field.
Qed.

Lemma two_qubit_period_three_witness :
  final_state (run_grovers_algorithm 2 "10" (1 + 3))
  = final_state (run_grovers_algorithm 2 "10" 1)
  /\ exists w1 w2 w3,
       final_state (run_grovers_algorithm 2 "10" (3 * 1 + 1)) = Some w1
       /\ probability w1 (target_index "10") = 1
       /\ final_state (run_grovers_algorithm 2 "10" (3 * 1 + 2)) = Some w2
       /\ probability w2 (target_index "10") = / 4
       /\ final_state (run_grovers_algorithm 2 "10" (3 * 1 + 3)) = Some w3
       /\ probability w3 (target_index "10") = / 4.
Proof.
  apply (two_qubit_period_three "10" 1 1); reflexivity.
Defined.

Lemma Cnorm2_scale (x : R) (u : C) : Cnorm2 (Cscale x u) = x * x * Cnorm2 u.
Proof. destruct u. cunfold. ring. Qed.

Lemma grover_amps_8 (u : C) :
  grover_amps (2 ^ 3) 1 (u, u) = (Cscale (- (5 / 2)) u, Cscale (- (1 / 2)) u)
  /\ grover_amps (2 ^ 3) 2 (u, u)
     = (Cscale (11 / 4) u, Cscale (- (1 / 4)) u)
  /\ grover_amps (2 ^ 3) 3 (u, u)
     = (Cscale (- (13 / 8)) u, Cscale (7 / 8) u).
Proof.
  destruct u as [x y]. simpl. cunfold.
  repeat split; f_equal; f_equal; field.
Qed.

(** X13. On three qubits, for each of the eight targets, the probability
    of the target is 25/32 after one iteration, 121/128 after two and
    169/512 after three: the second iteration still gains, the third
    loses. *)
Theorem three_qubit_probabilities (t : string) :
  String.length t = 3%nat -> is_binary t = true ->
  exists w1 w2 w3,
    final_state (run_grovers_algorithm 3 t 1) = Some w1
    /\ probability w1 (target_index t) = 25 / 32
    /\ final_state (run_grovers_algorithm 3 t 2) = Some w2
    /\ probability w2 (target_index t) = 121 / 128
    /\ final_state (run_grovers_algorithm 3 t 3) = Some w3
    /\ probability w3 (target_index t) = 169 / 512.
Proof.
  intros Lt Bt.
  assert (Ht : (target_index t < 2 ^ 3)%nat)
    by (assert (H := target_index_lt t); now rewrite Lt in H).
  destruct (grover_amps_8 (Cscale (inv_sqrt2 ^ 3) C1)) as (E1 & E2 & E3).
  assert (U := Cnorm2_uniform 3).
  do 3 eexists.
  split; [apply final_state_run; auto; lia|].
  split; [|split; [apply final_state_run; auto; lia|]].
  2: split; [|split; [apply final_state_run; auto; lia|]].
  - unfold probability. rewrite amp_at_two_level, Nat.eqb_refl by exact Ht.
    rewrite E1. cbn [fst]. rewrite Cnorm2_scale, U. simpl. field.
  - unfold probability. rewrite amp_at_two_level, Nat.eqb_refl by exact Ht.
    rewrite E2. cbn [fst]. rewrite Cnorm2_scale, U. simpl. field.
  - unfold probability. rewrite amp_at_two_level, Nat.eqb_refl by exact Ht.
    rewrite E3. cbn [fst]. rewrite Cnorm2_scale, U. simpl. field.
Qed.

Lemma three_qubit_probabilities_witness :
  exists w1 w2 w3,
    final_state (run_grovers_algorithm 3 "101" 1) = Some w1
    /\ probability w1 (target_index "101") = 25 / 32
    /\ final_state (run_grovers_algorithm 3 "101" 2) = Some w2
    /\ probability w2 (target_index "101") = 121 / 128
    /\ final_state (run_grovers_algorithm 3 "101" 3) = Some w3
    /\ probability w3 (target_index "101") = 169 / 512.
Proof. apply (three_qubit_probabilities "101"); reflexivity. Defined.

(* ================================================================= *)
(** ** The building blocks of the two steps *)

(** X14. [qc.h(range(n))] is its own inverse: for [n >= 1], on any vector
    of length [2^n] the Hadamard layer appended twice changes nothing. *)
Theorem hadamard_layer_twice_identity (n : nat) (v : statevector) :
  (1 <= n)%nat -> length v = (2 ^ n)%nat ->
  run_on (qc_h_range n ;; qc_h_range n) n v = Some v.
Proof.
  intros Hn L.
  rewrite (run_on_appends _ n (h_layer n ++ h_layer n))
    by (apply appends_seq; now apply appends_h_range).
  rewrite simulate_app. now rewrite h_layer_involutive.
Qed.

Lemma hadamard_layer_twice_witness :
  run_on (qc_h_range 2 ;; qc_h_range 2) 2 (init 2) = Some (init 2).
Proof.
  apply (hadamard_layer_twice_identity 2 (init 2)); [lia | reflexivity].
Defined.

(** X15. The three gates both steps comment as multi-controlled Z (H on
    the last qubit, MCX controlled by all the others, H on the last qubit)
    are placed without error for [n >= 1] and flip the sign of exactly the
    amplitude of the all-ones index [2^n - 1]. *)
Theorem mcz_last_flips_all_ones (n : nat) (v : statevector) :
  (1 <= n)%nat -> length v = (2 ^ n)%nat ->
  exists w,
    run_on (mcz_last n) n v = Some w
    /\ length w = (2 ^ n)%nat
    /\ forall i, (i < 2 ^ n)%nat ->
         amp_at w i = if Nat.eqb i (2 ^ n - 1)
                      then Copp (amp_at v i) else amp_at v i.
Proof.
  intros Hn L. exists (negate_at (2 ^ n - 1) v). split; [|split].
  - rewrite (run_on_appends _ n (mcz_gates n))
      by (now apply appends_mcz_last).
    now rewrite simulate_mcz_gates.
  - now rewrite negate_at_length.
  - intros i Hi. apply amp_at_negate_at. now rewrite L.
Qed.

Lemma mcz_last_witness :
  exists w,
    run_on (mcz_last 2) 2 (init 2) = Some w
    /\ length w = (2 ^ 2)%nat
    /\ forall i, (i < 2 ^ 2)%nat ->
         amp_at w i = if Nat.eqb i (2 ^ 2 - 1)
                      then Copp (amp_at (init 2) i) else amp_at (init 2) i.
Proof. apply (mcz_last_flips_all_ones 2 (init 2)); [lia | reflexivity]. Defined.

Lemma binary_bits_zeros (n : nat) :
  binary_bits (string_of_list_ascii (repeat "0"%char n)) = repeat 0%nat n.
Proof.
  unfold binary_bits. rewrite list_ascii_of_string_of_list_ascii.
  rewrite (map_const_repeat _ 0%nat).
  - now rewrite length_rev, repeat_length.
  - intros c Hc. apply in_rev, repeat_spec in Hc. now subst c.
Qed.

(** X16. The diffusion step is the oracle of the all-zero target between
    two Hadamard layers: on a circuit with [n >= 1] qubits,
    [apply_diffusion] appends the same instructions as [qc.h(range(n))],
    [apply_oracle] for the string of [n] characters ['0'], and
    [qc.h(range(n))] again. *)
Theorem diffusion_is_conjugated_zero_oracle (n : nat) (d : list instruction) :
  (1 <= n)%nat ->
  apply_diffusion n (mkCircuit n d)
  = (qc_h_range n ;;
     apply_oracle n (string_of_list_ascii (repeat "0"%char n)) ;;
     qc_h_range n) (mkCircuit n d)
  /\ exists gs, apply_diffusion n (mkCircuit n d)
                = Done (mkCircuit n (d ++ gs)).
Proof.
  intros Hn.
  assert (Z : is_binary (string_of_list_ascii (repeat "0"%char n)) = true).
  { unfold is_binary. rewrite list_ascii_of_string_of_list_ascii.
    apply forallb_forall. intros c Hc. apply repeat_spec in Hc. now subst c. }
  assert (A : appends
                (qc_h_range n ;;
                 apply_oracle n (string_of_list_ascii (repeat "0"%char n)) ;;
                 qc_h_range n)
                n (h_layer n ++ oracle_gates n (repeat 0%nat n) ++ h_layer n)).
  { apply appends_seq; [now apply appends_h_range|].
    apply appends_seq; [|now apply appends_h_range].
    rewrite <- binary_bits_zeros.
    apply appends_apply_oracle; auto using target_bits_binary.
    rewrite binary_bits_zeros, repeat_length. lia. }
  rewrite A, (appends_apply_diffusion n Hn d), diffusion_gates_oracle.
  split; [reflexivity | eauto].
Qed.

Lemma diffusion_is_conjugated_zero_oracle_witness :
  apply_diffusion 2 (mkCircuit 2 [])
  = (qc_h_range 2 ;; apply_oracle 2 "00" ;; qc_h_range 2) (mkCircuit 2 [])
  /\ exists gs, apply_diffusion 2 (mkCircuit 2 [])
                = Done (mkCircuit 2 ([] ++ gs)).
Proof. apply (diffusion_is_conjugated_zero_oracle 2 []). lia. Defined.

Lemma Cnorm2_opp (a : C) : Cnorm2 (Copp a) = Cnorm2 a.
Proof. destruct a. cunfold. ring. Qed.

(** X17. The oracle alone changes no measurement probability: for
    [n >= 1], a binary target of length [n] and any vector of length
    [2^n], every squared magnitude after [apply_oracle] equals the one
    before. *)
Theorem apply_oracle_keeps_probabilities
    (n : nat) (t : string) (v : statevector) :
  (1 <= n)%nat -> String.length t = n -> is_binary t = true ->
  length v = (2 ^ n)%nat ->
  exists w,
    run_on (apply_oracle n t) n v = Some w
    /\ forall i, probability w i = probability v i.
Proof.
  intros Hn Lt Bt L. exists (negate_at (target_index t) v).
  split; [now apply run_on_apply_oracle|].
  intros i. unfold probability.
  destruct (Nat.lt_ge_cases i (length v)) as [Hi|Hi].
  - rewrite amp_at_negate_at by exact Hi.
    destruct (Nat.eqb i (target_index t));
      [apply Cnorm2_opp | reflexivity].
  - unfold amp_at.
    now rewrite !nth_overflow by (rewrite ?negate_at_length; exact Hi).
Qed.

Lemma apply_oracle_keeps_probabilities_witness :
  exists w,
    run_on (apply_oracle 3 "101") 3 (init 3) = Some w
    /\ forall i, probability w i = probability (init 3) i.
Proof.
  apply (apply_oracle_keeps_probabilities 3 "101" (init 3));
    [lia | reflexivity | reflexivity | reflexivity].
Defined.
